(** * frontend/script.js: the recording session controller

    A shallow embedding of the browser script: the two globals
    [mediaRecorder] and [chunks], the click handler of [recordBtn], the
    async function [sendAudio], and the parts of the platform they call
    ([String.prototype.match] with [/.{1,2}/g], [parseInt], the
    [Uint8Array] constructor, [Blob], [FormData], [fetch], [MediaRecorder]).

    The platform is modelled as far as the script observes it:
    - a JS string is its sequence of UTF-16 code units;
    - a Number coming out of [parseInt] is NaN or an integer (the two zeros
      are not kept apart: [ToUint8] sends both to 0);
    - the event loop is a sequence of events, each run to completion; an
      [await] splits an async function into the part before the suspension
      and the continuation run by a later event;
    - the continuation of a suspended call reads none of the call's local
      variables, so the suspended calls of a kind are counted, not listed;
    - a recorder stops on [stop()], or when the platform ends its capture
      (the stream ends, the recording fails); [new MediaRecorder] and
      [start()] do not throw, and the page holds [#recordBtn] and
      [#responseAudio]. *)

From Stdlib Require Import ZArith NArith.
From Stdlib.Strings Require Import Ascii String Byte.
From stdpp Require Import base option list.

Set Warnings "-register-all".

Local Open Scope N_scope.

(** ** JS strings *)

Definition code_unit := N.
Definition js_string := list code_unit.

(** A literal of ASCII characters as a JS string. *)
Definition js (s : string) : js_string :=
  map N_of_ascii (list_ascii_of_string s).

(** ECMAScript [LineTerminator]: LF, CR, LS, PS. *)
Definition is_LineTerminator (c : code_unit) : bool :=
  (c =? 0x0A) || (c =? 0x0D) || (c =? 0x2028) || (c =? 0x2029).

(** ECMAScript [WhiteSpace]: TAB, VT, FF, ZWNBSP and the code points of
    category Zs. *)
Definition is_WhiteSpace (c : code_unit) : bool :=
  (c =? 0x09) || (c =? 0x0B) || (c =? 0x0C) || (c =? 0xFEFF)
  || (c =? 0x20) || (c =? 0xA0) || (c =? 0x1680)
  || ((0x2000 <=? c) && (c <=? 0x200A))
  || (c =? 0x202F) || (c =? 0x205F) || (c =? 0x3000).

(** [StrWhiteSpaceChar], what [parseInt] skips at the start. *)
Definition is_StrWhiteSpaceChar (c : code_unit) : bool :=
  is_WhiteSpace c || is_LineTerminator c.

(** ** [audio.match(/.{1,2}/g)]

    [.] (no [s] or [u] flag) matches one code unit that is not a line
    terminator.  [.{1,2}] is greedy: at a position where [.] matches it takes
    a second unit when that one matches too.  With the [g] flag the search
    restarts at the end of the previous match; where [.] does not match the
    search moves one unit on. *)

Definition dot (c : code_unit) : bool := negb (is_LineTerminator c).

Fixpoint match_all (s : js_string) : list js_string :=
  match s with
  | [] => []
  | c1 :: tl =>
      if dot c1 then
        match tl with
        | [] => [[c1]]
        | c2 :: rest =>
            if dot c2 then [c1; c2] :: match_all rest
            else [c1] :: match_all tl
        end
      else match_all tl
  end.

(** [String.prototype.match] with a global regular expression returns
    [null] when nothing matched, otherwise the array of the matches. *)
Definition String_match (s : js_string) : option (list js_string) :=
  match match_all s with
  | [] => None
  | g :: gs => Some (g :: gs)
  end.

(** ** [parseInt(string, radix)] *)

Inductive Number := NaN | Num (z : Z).

(** Value of a code unit as a digit: [0-9], then [a-z] and [A-Z] for 10..35. *)
Definition digit_value (c : code_unit) : option N :=
  if (0x30 <=? c) && (c <=? 0x39) then Some (c - 0x30)
  else if (0x61 <=? c) && (c <=? 0x7A) then Some (c - 0x61 + 10)
  else if (0x41 <=? c) && (c <=? 0x5A) then Some (c - 0x41 + 10)
  else None.

Definition radix_digit (R : N) (c : code_unit) : option N :=
  match digit_value c with
  | Some d => if d <? R then Some d else None
  | None => None
  end.

(** Step 2: the string without its leading white space. *)
Fixpoint trim_start (s : js_string) : js_string :=
  match s with
  | c :: tl => if is_StrWhiteSpaceChar c then trim_start tl else s
  | [] => []
  end.

(** Steps 11-12: the longest prefix of radix-R digits, as digit values. *)
Fixpoint digits_prefix (R : N) (s : js_string) : list N :=
  match s with
  | c :: tl =>
      match radix_digit R c with
      | Some d => d :: digits_prefix R tl
      | None => []
      end
  | [] => []
  end.

(** Step 14: the integer a digit sequence denotes, most significant first. *)
Definition digits_to_N (R : N) (ds : list N) : N :=
  fold_left (fun acc d => acc * R + d) ds 0.

(** The algorithm of the standard, steps 1-16.  The result is the exact
    integer; a Number holds it exactly below 2^53, which covers every input
    with at most thirteen digits. *)
Definition parseInt (input : js_string) (radix : Z) : Number :=
  let str := trim_start input in
  let sign : Z :=
    match str with
    | c :: _ => if c =? 0x2D then (-1)%Z else 1%Z
    | [] => 1%Z
    end in
  let str :=
    match str with
    | c :: tl => if (c =? 0x2B) || (c =? 0x2D) then tl else str
    | [] => str
    end in
  if ((radix =? 0)%Z) || ((2 <=? radix)%Z && (radix <=? 36)%Z) then
    let R := if (radix =? 0)%Z then 10 else Z.to_N radix in
    let stripPrefix := (radix =? 0)%Z || (radix =? 16)%Z in
    let '(R, str) :=
      if stripPrefix then
        match str with
        | c0 :: c1 :: tl =>
            if (c0 =? 0x30) && ((c1 =? 0x78) || (c1 =? 0x58)) then (16, tl)
            else (R, str)
        | _ => (R, str)
        end
      else (R, str) in
    match digits_prefix R str with
    | [] => NaN
    | ds => Num (sign * Z.of_N (digits_to_N R ds))
    end
  else NaN.

(** ** [new Uint8Array(array)] *)

(** [ToUint8]: NaN becomes 0, an integer is taken modulo 2^8. *)
Definition byte_of_N (n : N) : byte := default x00 (Byte.of_N n).

Definition ToUint8 (n : Number) : byte :=
  match n with
  | NaN => x00
  | Num z => byte_of_N (Z.to_N (z mod 256))
  end.

Definition Uint8Array_from (l : list Number) : list byte := map ToUint8 l.

(** ** Errors a promise of the script can reject with *)

Inductive JsError :=
  | TypeError      (* property of null/undefined, call of a non-function,
                      and what fetch rejects with on a network failure *)
  | SyntaxError    (* res.json() on a body that is not JSON *)
  | DOMException.  (* getUserMedia refused *)

(** ** The decoder of [sendAudio]

<<
  new Uint8Array(
    data.audio.match(/.{1,2}/g).map(byte => parseInt(byte, 16)))
>>
    for [data.audio] a string.  [null.map] throws a TypeError. *)
Definition decode_audio (audio : js_string) : JsError + list byte :=
  match String_match audio with
  | None => inl TypeError
  | Some groups => inr (Uint8Array_from (map (fun byte => parseInt byte 16) groups))
  end.

(** ** Blobs, forms, requests *)

Record Blob := { blob_bytes : list byte; blob_type : string }.

(** [new Blob(parts, {type})]: the bytes of the parts one after the other. *)
Definition Blob_of_blobs (parts : list Blob) (type : string) : Blob :=
  {| blob_bytes := concat (map blob_bytes parts); blob_type := type |}.

(** [new Blob([u8], {type})] for a [Uint8Array]. *)
Definition Blob_of_bytes (u8 : list byte) (type : string) : Blob :=
  {| blob_bytes := u8; blob_type := type |}.

(** An entry of a [FormData]: [append(name, blob, filename)]. *)
Record FormEntry :=
  { entry_name : string; entry_value : Blob; entry_filename : string }.

Definition FormData := list FormEntry.

Definition FormData_append (form : FormData) (name : string) (value : Blob)
    (filename : string) : FormData :=
  form ++ [{| entry_name := name; entry_value := value;
              entry_filename := filename |}].

(** A call of [fetch(url, {method, body})]. *)
Record Request :=
  { req_url : string; req_method : string; req_body : FormData }.

(** ** Values [res.json()] resolves with, and property reads on them *)

Inductive JsValue :=
  | Undefined
  | Null
  | Bool (b : bool)
  | Numeric (n : Number)
  | Str (s : js_string)
  | Array (items : list JsValue)
  | Object (props : list (js_string * JsValue)).

(** The own properties of a parsed object, keys unique. *)
Fixpoint own_property (props : list (js_string * JsValue)) (key : js_string)
    : JsValue :=
  match props with
  | [] => Undefined
  | (k, v) :: tl => if decide (k = key) then v else own_property tl key
  end.

(** [data.audio]: reading a property of [null] or [undefined] throws; a
    primitive or an array has no property of that name. *)
Definition get_audio (data : JsValue) : JsError + JsValue :=
  match data with
  | Undefined | Null => inl TypeError
  | Object props => inr (own_property props (js "audio"))
  | _ => inr Undefined
  end.

(** [v.match(/.{1,2}/g).map(byte => parseInt(byte, 16))] wrapped in
    [new Uint8Array]: only a string has a callable [match]; on [undefined]
    the property read throws, on any other value the call does. *)
Definition decode_value (v : JsValue) : JsError + list byte :=
  match v with
  | Str s => decode_audio s
  | _ => inl TypeError
  end.

(** ** Media recorders *)

Inductive RecordingState := inactive | recording | paused.

(** The functions the script installs as event handlers, by the event they
    are installed for. *)
Inductive DataHandler := push_chunk.       (* e => chunks.push(e.data) *)
Inductive StopHandler := sendAudio_handler. (* sendAudio *)

Record MediaRecorder := {
  state : RecordingState;
  ondataavailable : option DataHandler;
  onstop : option StopHandler;
  stop_queued : bool  (* stop() has queued the task that fires "stop" *)
}.

(** [new MediaRecorder(stream)] *)
Definition new_MediaRecorder : MediaRecorder :=
  {| state := inactive; ondataavailable := None; onstop := None;
     stop_queued := false |}.

Definition set_ondataavailable (h : DataHandler) (m : MediaRecorder) :=
  {| state := state m; ondataavailable := Some h; onstop := onstop m;
     stop_queued := stop_queued m |}.

Definition set_onstop (h : StopHandler) (m : MediaRecorder) :=
  {| state := state m; ondataavailable := ondataavailable m; onstop := Some h;
     stop_queued := stop_queued m |}.

(** [start()] on an inactive recorder (on another one it throws, and the
    script only starts the recorder it has just made). *)
Definition MediaRecorder_start (m : MediaRecorder) : MediaRecorder :=
  {| state := recording; ondataavailable := ondataavailable m;
     onstop := onstop m; stop_queued := stop_queued m |}.

(** [stop()]: nothing on an inactive recorder; otherwise the recorder is
    inactive at once and a task is queued that delivers the data gathered so
    far and then fires "stop". *)
Definition MediaRecorder_stop (m : MediaRecorder) : MediaRecorder :=
  match state m with
  | inactive => m
  | _ => {| state := inactive; ondataavailable := ondataavailable m;
            onstop := onstop m; stop_queued := true |}
  end.

Definition stop_fired (m : MediaRecorder) : MediaRecorder :=
  {| state := state m; ondataavailable := ondataavailable m;
     onstop := onstop m; stop_queued := false |}.

Definition is_inactive (m : MediaRecorder) : bool :=
  match state m with inactive => true | _ => false end.

(** ** The page *)

Record Page := {
  mediaRecorder : option nat;       (* let mediaRecorder; a reference or undefined *)
  chunks : list Blob;               (* let chunks = [] *)
  recorders : list MediaRecorder;   (* the recorder objects, by creation order *)
  awaiting_stream : nat;            (* click handlers suspended at getUserMedia *)
  awaiting_fetch : nat;             (* sendAudio calls suspended at fetch *)
  awaiting_json : nat;              (* sendAudio calls suspended at res.json() *)
  requests : list Request;          (* the calls of fetch, oldest first *)
  object_urls : list Blob;          (* URL.createObjectURL registry *)
  responseAudio_src : option nat;   (* src of #responseAudio, an object URL *)
  console : list string;            (* console.log *)
  unhandled : list JsError          (* unhandled promise rejections *)
}.

Definition initial : Page :=
  {| mediaRecorder := None; chunks := []; recorders := [];
     awaiting_stream := 0; awaiting_fetch := 0; awaiting_json := 0;
     requests := []; object_urls := []; responseAudio_src := None;
     console := []; unhandled := [] |}.

Definition set_mediaRecorder (x : option nat) (p : Page) : Page :=
  {| mediaRecorder := x; chunks := chunks p; recorders := recorders p;
     awaiting_stream := awaiting_stream p; awaiting_fetch := awaiting_fetch p;
     awaiting_json := awaiting_json p; requests := requests p;
     object_urls := object_urls p; responseAudio_src := responseAudio_src p;
     console := console p; unhandled := unhandled p |}.

Definition set_chunks (x : list Blob) (p : Page) : Page :=
  {| mediaRecorder := mediaRecorder p; chunks := x; recorders := recorders p;
     awaiting_stream := awaiting_stream p; awaiting_fetch := awaiting_fetch p;
     awaiting_json := awaiting_json p; requests := requests p;
     object_urls := object_urls p; responseAudio_src := responseAudio_src p;
     console := console p; unhandled := unhandled p |}.

Definition set_recorders (x : list MediaRecorder) (p : Page) : Page :=
  {| mediaRecorder := mediaRecorder p; chunks := chunks p; recorders := x;
     awaiting_stream := awaiting_stream p; awaiting_fetch := awaiting_fetch p;
     awaiting_json := awaiting_json p; requests := requests p;
     object_urls := object_urls p; responseAudio_src := responseAudio_src p;
     console := console p; unhandled := unhandled p |}.

Definition set_awaiting_stream (x : nat) (p : Page) : Page :=
  {| mediaRecorder := mediaRecorder p; chunks := chunks p; recorders := recorders p;
     awaiting_stream := x; awaiting_fetch := awaiting_fetch p;
     awaiting_json := awaiting_json p; requests := requests p;
     object_urls := object_urls p; responseAudio_src := responseAudio_src p;
     console := console p; unhandled := unhandled p |}.

Definition set_awaiting_fetch (x : nat) (p : Page) : Page :=
  {| mediaRecorder := mediaRecorder p; chunks := chunks p; recorders := recorders p;
     awaiting_stream := awaiting_stream p; awaiting_fetch := x;
     awaiting_json := awaiting_json p; requests := requests p;
     object_urls := object_urls p; responseAudio_src := responseAudio_src p;
     console := console p; unhandled := unhandled p |}.

Definition set_awaiting_json (x : nat) (p : Page) : Page :=
  {| mediaRecorder := mediaRecorder p; chunks := chunks p; recorders := recorders p;
     awaiting_stream := awaiting_stream p; awaiting_fetch := awaiting_fetch p;
     awaiting_json := x; requests := requests p;
     object_urls := object_urls p; responseAudio_src := responseAudio_src p;
     console := console p; unhandled := unhandled p |}.

Definition add_request (x : Request) (p : Page) : Page :=
  {| mediaRecorder := mediaRecorder p; chunks := chunks p; recorders := recorders p;
     awaiting_stream := awaiting_stream p; awaiting_fetch := awaiting_fetch p;
     awaiting_json := awaiting_json p; requests := requests p ++ [x];
     object_urls := object_urls p; responseAudio_src := responseAudio_src p;
     console := console p; unhandled := unhandled p |}.

Definition console_log (x : string) (p : Page) : Page :=
  {| mediaRecorder := mediaRecorder p; chunks := chunks p; recorders := recorders p;
     awaiting_stream := awaiting_stream p; awaiting_fetch := awaiting_fetch p;
     awaiting_json := awaiting_json p; requests := requests p;
     object_urls := object_urls p; responseAudio_src := responseAudio_src p;
     console := console p ++ [x]; unhandled := unhandled p |}.

(** A promise nobody awaits is rejected. *)
Definition reject (e : JsError) (p : Page) : Page :=
  {| mediaRecorder := mediaRecorder p; chunks := chunks p; recorders := recorders p;
     awaiting_stream := awaiting_stream p; awaiting_fetch := awaiting_fetch p;
     awaiting_json := awaiting_json p; requests := requests p;
     object_urls := object_urls p; responseAudio_src := responseAudio_src p;
     console := console p; unhandled := unhandled p ++ [e] |}.

(** [document.getElementById("responseAudio").src = URL.createObjectURL(b)]:
    a fresh object URL for [b], assigned to the element. *)
Definition set_src_object_url (b : Blob) (p : Page) : Page :=
  {| mediaRecorder := mediaRecorder p; chunks := chunks p; recorders := recorders p;
     awaiting_stream := awaiting_stream p; awaiting_fetch := awaiting_fetch p;
     awaiting_json := awaiting_json p; requests := requests p;
     object_urls := object_urls p ++ [b];
     responseAudio_src := Some (length (object_urls p));
     console := console p; unhandled := unhandled p |}.

(** ** The script *)

(** [sendAudio] up to [await fetch(...)]. *)
Definition sendAudio (p : Page) : Page :=
  let blob := Blob_of_blobs (chunks p) "audio/wav" in
  let form := FormData_append [] "audio" blob "audio.wav" in
  let p := add_request
             {| req_url := "http://localhost:8000/assistant?voice_id=your-id-here";
                req_method := "POST";
                req_body := form |} p in
  set_awaiting_fetch (S (awaiting_fetch p)) p.

(** [sendAudio] from [const data = ...] on, [data] being what [res.json()]
    resolved with.  The page is assumed to hold the [#responseAudio]
    element. *)
Definition sendAudio_data (data : JsValue) (p : Page) : Page :=
  match get_audio data with
  | inl e => reject e p
  | inr audio =>
      match decode_value audio with
      | inl e => reject e p
      | inr audioBytes =>
          let audioBlob := Blob_of_bytes audioBytes "audio/wav" in
          set_src_object_url audioBlob p
      end
  end.

(** The click handler up to [await getUserMedia(...)], or to its end in the
    [else] branch.  [None]: [mediaRecorder] refers to no recorder. *)
Definition onclick (p : Page) : option Page :=
  match mediaRecorder p with
  | None => Some (set_awaiting_stream (S (awaiting_stream p)) p)
  | Some r =>
      m ← recorders p !! r;
      if is_inactive m
      then Some (set_awaiting_stream (S (awaiting_stream p)) p)
      else Some (set_recorders (alter MediaRecorder_stop r (recorders p)) p)
  end.

(** The click handler from [mediaRecorder = new MediaRecorder(stream)] on.
    The three statements after the assignment go through [mediaRecorder],
    which is the new recorder [r] for the whole of this run. *)
Definition onclick_stream (p : Page) : Page :=
  let r := length (recorders p) in
  let p := set_recorders (recorders p ++ [new_MediaRecorder]) p in
  let p := set_mediaRecorder (Some r) p in
  let p := set_recorders (alter (set_ondataavailable push_chunk) r (recorders p)) p in
  let p := set_recorders (alter (set_onstop sendAudio_handler) r (recorders p)) p in
  let p := set_recorders (alter MediaRecorder_start r (recorders p)) p in
  console_log "Recording..." p.

(** ** The event loop *)

Inductive Event :=
  | Click                                  (* recordBtn clicked *)
  | StreamResolved                         (* a getUserMedia promise fulfilled *)
  | StreamRejected                         (* a getUserMedia promise rejected *)
  | DataAvailable (r : nat) (data : Blob)  (* "dataavailable" at recorder r *)
  | StopFired (r : nat)                    (* "stop" at recorder r *)
  | FetchResolved                          (* a fetch promise fulfilled *)
  | FetchRejected                          (* network failure *)
  | JsonResolved (data : JsValue)          (* a res.json() promise fulfilled *)
  | JsonRejected                           (* the body was not JSON *)
  | CaptureEnded (r : nat)                 (* the platform stops recorder r *)
  | JsonBodyFailed.                        (* the body could not be read *)

(** One event run to completion; [None] when the platform cannot produce the
    event in this state (no such promise pending, no such recorder, a
    recorder that neither records nor has its stop task queued).  When the
    platform ends a capture itself it does what [stop()] does: the recorder
    is inactive at once and the task that delivers the data and fires "stop"
    is queued. *)
Definition step (p : Page) (e : Event) : option Page :=
  match e with
  | Click => onclick p
  | StreamResolved =>
      match awaiting_stream p with
      | O => None
      | S n => Some (onclick_stream (set_awaiting_stream n p))
      end
  | StreamRejected =>
      match awaiting_stream p with
      | O => None
      | S n => Some (reject DOMException (set_awaiting_stream n p))
      end
  | DataAvailable r data =>
      m ← recorders p !! r;
      if is_inactive m && negb (stop_queued m) then None
      else match ondataavailable m with
           | Some push_chunk => Some (set_chunks (chunks p ++ [data]) p)
           | None => Some p
           end
  | StopFired r =>
      m ← recorders p !! r;
      if stop_queued m then
        let p := set_recorders (alter stop_fired r (recorders p)) p in
        match onstop m with
        | Some sendAudio_handler => Some (sendAudio p)
        | None => Some p
        end
      else None
  | FetchResolved =>
      match awaiting_fetch p with
      | O => None
      | S n => Some (set_awaiting_json (S (awaiting_json p)) (set_awaiting_fetch n p))
      end
  | FetchRejected =>
      match awaiting_fetch p with
      | O => None
      | S n => Some (reject TypeError (set_awaiting_fetch n p))
      end
  | JsonResolved data =>
      match awaiting_json p with
      | O => None
      | S n => Some (sendAudio_data data (set_awaiting_json n p))
      end
  | JsonRejected =>
      match awaiting_json p with
      | O => None
      | S n => Some (reject SyntaxError (set_awaiting_json n p))
      end
  | CaptureEnded r =>
      m ← recorders p !! r;
      if is_inactive m then None
      else Some (set_recorders (alter MediaRecorder_stop r (recorders p)) p)
  | JsonBodyFailed =>
      match awaiting_json p with
      | O => None
      | S n => Some (reject TypeError (set_awaiting_json n p))
      end
  end.

Fixpoint run (p : Page) (t : list Event) : option Page :=
  match t with
  | [] => Some p
  | e :: t => p' ← step p e; run p' t
  end.

(** ** The hex encoding of the response's [audio] field

    What the interface description asks of the server: every byte as two
    hexadecimal digits, most significant nibble first, in either case. *)

Definition hex_digit (upper : bool) (n : N) : code_unit :=
  if n <? 10 then 0x30 + n
  else (if upper then 0x41 else 0x61) + (n - 10).

Definition hex_pair (uh ul : bool) (b : byte) : js_string :=
  [hex_digit uh (Byte.to_N b / 16); hex_digit ul (Byte.to_N b mod 16)].

(** Lowercase throughout, as in ["0aff01"]. *)
Definition hex_encode (B : list byte) : js_string :=
  concat (map (hex_pair false false) B).

(** [hex_encoding s B]: [s] spells [B], each digit in a case of its own. *)
Inductive hex_encoding : js_string -> list byte -> Prop :=
  | hex_encoding_nil : hex_encoding [] []
  | hex_encoding_cons uh ul b s B :
      hex_encoding s B -> hex_encoding (hex_pair uh ul b ++ s) (b :: B).

Definition is_hex_digit (c : code_unit) : bool :=
  ((0x30 <=? c) && (c <=? 0x39))
  || ((0x61 <=? c) && (c <=? 0x66))
  || ((0x41 <=? c) && (c <=? 0x46)).

(** The value of a hexadecimal digit, 0 for any other code unit. *)
Definition nibble (c : code_unit) : N :=
  if (0x30 <=? c) && (c <=? 0x39) then c - 0x30
  else if (0x61 <=? c) && (c <=? 0x66) then c - 0x57
  else if (0x41 <=? c) && (c <=? 0x46) then c - 0x37
  else 0.

(** The longest leading run of hexadecimal digits. *)
Fixpoint hex_prefix (s : js_string) : js_string :=
  match s with
  | c :: tl => if is_hex_digit c then c :: hex_prefix tl else []
  | [] => []
  end.

(** The number a run of hexadecimal digits denotes; 0 for the empty run. *)
Definition hex_value (s : js_string) : N :=
  fold_left (fun acc c => acc * 16 + nibble c) s 0.

(** The byte of a group, read as "the base-16 value of its longest valid
    leading hex prefix, 0 when there is none". *)
Definition prefix_byte (g : js_string) : byte :=
  byte_of_N (hex_value (hex_prefix g)).

(** The byte of a group when leading white space is skipped and a sign is
    honoured first: a ["-"] negates the value modulo 256. *)
Definition skip_sign (s : js_string) : js_string :=
  match s with
  | c :: tl => if (c =? 0x2B) || (c =? 0x2D) then tl else s
  | [] => []
  end.

Definition has_minus (s : js_string) : bool :=
  match s with
  | c :: _ => c =? 0x2D
  | [] => false
  end.

Definition group_byte (g : js_string) : byte :=
  let t := trim_start g in
  let v := hex_value (hex_prefix (skip_sign t)) in
  byte_of_N (if has_minus t then (256 - v) mod 256 else v).

(** A lone trailing digit is "rejected or dropped": decoding raises, or
    yields the bytes of the pairs before it and nothing more. *)
Definition rejected_or_truncated (s : js_string) : Prop :=
  (exists e, decode_audio s = inl e)
  \/ (exists B, hex_encoding (removelast s) B /\ decode_audio s = inr B).

(** ** Capture handles *)

Definition active (m : MediaRecorder) : bool := negb (is_inactive m).

(** The recorders that are capturing. *)
Definition active_handles (p : Page) : list MediaRecorder :=
  filter (fun m => active m = true) (recorders p).

(** [mediaRecorder] is undefined or an inactive recorder: the condition of
    the [if]. *)
Definition idle (p : Page) : Prop :=
  mediaRecorder p = None
  \/ exists r m, mediaRecorder p = Some r /\ recorders p !! r = Some m
                 /\ state m = inactive.

(** Every recorder carries the two handlers the click handler installs. *)
Definition handlers_installed (p : Page) : Prop :=
  Forall (fun m => ondataavailable m = Some push_chunk
                   /\ onstop m = Some sendAudio_handler) (recorders p).

Definition reachable (p : Page) : Prop :=
  exists t, run initial t = Some p.

(** The chunks a trace delivers, in delivery order. *)
Fixpoint delivered (t : list Event) : list Blob :=
  match t with
  | DataAvailable _ data :: t => data :: delivered t
  | _ :: t => delivered t
  | [] => []
  end.

(** The audio part of a request. *)
Definition payloads (q : Request) : list (list byte) :=
  map (fun e => blob_bytes (entry_value e)) (req_body q).

(** One record-then-upload cycle on the recorder it creates: click, stream
    granted, the chunks, click, the stop event. *)
Definition cycle (r : nat) (cs : list Blob) : list Event :=
  [Click; StreamResolved] ++ map (DataAvailable r) cs ++ [Click; StopFired r].

(** One record-then-upload session on the recorder it creates, with the
    chunks the platform delivers while it records and those it delivers with
    the stop task, after the click that stops: [start()] has no timeslice,
    so the data gathered comes with that task. *)
Definition session (r : nat) (recorded flushed : list Blob) : list Event :=
  [Click; StreamResolved] ++ map (DataAvailable r) recorded
  ++ [Click] ++ map (DataAvailable r) flushed ++ [StopFired r].

Definition is_stop (e : Event) : bool :=
  match e with
  | StopFired _ => true
  | _ => false
  end.

(** A stretch of events without a stop event. *)
Definition no_stop (t : list Event) : Prop :=
  forallb (fun e => negb (is_stop e)) t = true.

(** The request [sendAudio] makes for a buffer. *)
Definition upload_of (buffer : list Blob) : Request :=
  {| req_url := "http://localhost:8000/assistant?voice_id=your-id-here";
     req_method := "POST";
     req_body := [{| entry_name := "audio";
                     entry_value := {| blob_bytes := concat (map blob_bytes buffer);
                                       blob_type := "audio/wav" |};
                     entry_filename := "audio.wav" |}] |}.

(** What [match_all] returns: groups of one or two code units, none of them
    a line terminator. *)
Definition group_shape (g : js_string) : Prop :=
  (length g = 1 \/ length g = 2)%nat /\ forallb dot g = true.

(** A group that starts with neither white space nor a sign. *)
Definition plain_group (g : js_string) : Prop :=
  match g with
  | c :: _ => is_StrWhiteSpaceChar c = false /\ c <> 0x2B /\ c <> 0x2D
  | [] => True
  end.

(** The claim that every group decodes to the byte of its hex prefix. *)
Definition decodes_by_hex_prefix (s : js_string) : Prop :=
  decode_audio s = inr (map prefix_byte (match_all s)).

(** The recorder the click handler leaves behind once the stream is there. *)
Definition started : MediaRecorder :=
  {| state := recording; ondataavailable := Some push_chunk;
     onstop := Some sendAudio_handler; stop_queued := false |}.

(** The uploads a trace causes from a given buffer: one per stop event, of
    the buffer as it is by then. *)
Fixpoint uploads (buffer : list Blob) (t : list Event) : list Request :=
  match t with
  | [] => []
  | DataAvailable _ data :: t => uploads (buffer ++ [data]) t
  | StopFired _ :: t => upload_of buffer :: uploads buffer t
  | _ :: t => uploads buffer t
  end.

(** The data of a recorder can be delivered: it captures, or its stop task
    is still queued. *)
Definition delivering (m : MediaRecorder) : Prop :=
  is_inactive m && negb (stop_queued m) = false.

(** The invariant of the toggle: at most one acquisition is pending, and a
    recorder that captures is the current one, with no acquisition pending. *)
Definition one_capture (p : Page) : Prop :=
  (awaiting_stream p <= 1)%nat
  /\ forall r m, recorders p !! r = Some m -> active m = true ->
       mediaRecorder p = Some r /\ awaiting_stream p = 0%nat.

(** No click of the trace arrives while a click handler is suspended at
    [getUserMedia]. *)
Fixpoint clicks_wait (p : Page) (t : list Event) : Prop :=
  match t with
  | [] => True
  | e :: t =>
      (e = Click -> awaiting_stream p = 0%nat)
      /\ match step p e with
         | Some p' => clicks_wait p' t
         | None => True
         end
  end.

(** [mediaRecorder], when defined, refers to a recorder of the page. *)
Definition mediaRecorder_valid (p : Page) : Prop :=
  forall r, mediaRecorder p = Some r -> is_Some (recorders p !! r).

(** ** Bookkeeping of uploads and playback *)

(** The rejections that come out of [sendAudio]: the click handler rejects
    with the [DOMException] of [getUserMedia] only. *)
Definition upload_failure (e : JsError) : bool :=
  match e with
  | DOMException => false
  | _ => true
  end.

Definition upload_failures (es : list JsError) : nat :=
  length (List.filter upload_failure es).

(** The playback element plays the object URL made last, or nothing while
    none has been made. *)
Definition src_latest (p : Page) : Prop :=
  match responseAudio_src p with
  | None => object_urls p = []
  | Some u => S u = length (object_urls p)
  end.

(** The events of a capture, and the events of an exchange under way. *)
Definition capture_event (e : Event) : bool :=
  match e with
  | Click | StreamResolved | DataAvailable _ _ => true
  | _ => false
  end.

Definition response_event (e : Event) : bool :=
  match e with
  | FetchResolved | FetchRejected | JsonResolved _ | JsonRejected
  | JsonBodyFailed => true
  | _ => false
  end.

(** A recorder that has stopped and whose stop event has fired. *)
Definition spent (m : MediaRecorder) : Prop :=
  state m = inactive /\ stop_queued m = false.

(** A stop task is queued for inactive recorders only. *)
Definition queued_inactive (p : Page) : Prop :=
  forall r m, recorders p !! r = Some m -> stop_queued m = true ->
    state m = inactive.

(** Every way [step p e = Some p'] can hold, one goal each. *)
Ltac step_cases H :=
  match type of H with
  | step _ ?e = Some _ =>
      destruct e; simpl in H; unfold onclick, sendAudio_data in H;
      repeat match type of H with
        | context [mbind _ ?x] => destruct x eqn:?; simpl in H
        | context [match ?x with _ => _ end] => destruct x eqn:?; simpl in H
        end;
      try discriminate H; inversion H; subst; clear H
  end.

Ltac cmp_cases :=
  repeat match goal with
    | |- context [N.leb ?a ?b] => destruct (N.leb_spec a b)
    | |- context [N.ltb ?a ?b] => destruct (N.ltb_spec a b)
    | |- context [N.eqb ?a ?b] => destruct (N.eqb_spec a b)
    end.

(** * Properties *)

(** ** Grouping *)

(** Induction two code units at a time, as [match_all] recurses. *)
Lemma js_string_pair_ind (P : js_string -> Prop) :
  P [] ->
  (forall c, P [c]) ->
  (forall c1 c2 s, P s -> P (c2 :: s) -> P (c1 :: c2 :: s)) ->
  forall s, P s.
Proof.
  intros H0 H1 H2 s.
  assert (P s /\ forall c, P (c :: s)) as [? _]; [|done].
  induction s as [|c s [IH1 IH2]]; split; auto.
Qed.

Lemma match_all_shape s : Forall group_shape (match_all s).
Proof.
  induction s as [|c|c1 c2 s IH1 IH2] using js_string_pair_ind; simpl.
  - constructor.
  - destruct (dot c) eqn:Hc; repeat constructor; simpl; auto.
    by rewrite Hc.
  - simpl in IH2.
    destruct (dot c1) eqn:H1, (dot c2) eqn:H2; try done.
    + constructor; [|done]. split; simpl; auto. by rewrite H1, H2.
    + constructor; [|done]. split; simpl; auto. by rewrite H1.
Qed.

(** Nothing matches exactly when every code unit is a line terminator. *)
Lemma match_all_nil s : match_all s = [] <-> forallb is_LineTerminator s = true.
Proof.
  induction s as [|c|c1 c2 s IH1 IH2] using js_string_pair_ind; simpl.
  - done.
  - unfold dot. destruct (is_LineTerminator c); simpl; split; done.
  - simpl in IH2. unfold dot in *.
    destruct (is_LineTerminator c1), (is_LineTerminator c2); simpl in *;
      try done; split; done.
Qed.

Lemma String_match_some s :
  forallb is_LineTerminator s = false -> String_match s = Some (match_all s).
Proof.
  intros H. unfold String_match.
  destruct (match_all s) eqn:E; [|done].
  apply match_all_nil in E. congruence.
Qed.

Lemma match_all_pair c1 c2 s :
  dot c1 = true -> dot c2 = true ->
  match_all (c1 :: c2 :: s) = [c1; c2] :: match_all s.
Proof. intros H1 H2. simpl. by rewrite H1, H2. Qed.

(** ** Hex digits *)

Lemma hex_pair_dot uh ul b : forallb dot (hex_pair uh ul b) = true.
Proof. destruct uh, ul, b; reflexivity. Qed.

Lemma hex_pair_parse uh ul b :
  ToUint8 (parseInt (hex_pair uh ul b) 16) = b.
Proof. destruct uh, ul, b; reflexivity. Qed.

Lemma hex_encoding_groups s B :
  hex_encoding s B ->
  map (fun g => ToUint8 (parseInt g 16)) (match_all s) = B.
Proof.
  induction 1 as [|uh ul b s B _ IH]; [done|].
  pose proof (hex_pair_dot uh ul b) as Hd.
  pose proof (hex_pair_parse uh ul b) as Hp.
  unfold hex_pair in *. simpl in Hd.
  apply andb_prop in Hd as [H1 Hd]. apply andb_prop in Hd as [H2 _].
  change ([?a; ?b] ++ s) with (a :: b :: s).
  rewrite match_all_pair by done.
  rewrite map_cons. f_equal; [exact Hp | exact IH].
Qed.

Lemma hex_encoding_not_blank s B :
  hex_encoding s B -> B <> [] -> forallb is_LineTerminator s = false.
Proof.
  destruct 1 as [|uh ul b s B _]; [done|]. intros _.
  pose proof (hex_pair_dot uh ul b) as Hd.
  unfold hex_pair, dot in *. simpl in *.
  destruct (is_LineTerminator _); done.
Qed.

Lemma hex_encode_encoding B : hex_encoding (hex_encode B) B.
Proof.
  induction B as [|b B IH]; [constructor|].
  unfold hex_encode. rewrite map_cons, concat_cons. by constructor.
Qed.

(** The round trip wherever there is a byte to decode: a string that spells
    a non-empty [B], in whatever case, decodes to [B]. *)
Theorem decode_hex_encoding s B :
  hex_encoding s B -> B <> [] -> decode_audio s = inr B.
Proof.
  intros Hs HB. unfold decode_audio.
  rewrite String_match_some by eauto using hex_encoding_not_blank.
  unfold Uint8Array_from. rewrite map_map.
  by rewrite (hex_encoding_groups s B).
Qed.

Corollary decode_hex_encode B :
  B <> [] -> decode_audio (hex_encode B) = inr B.
Proof. apply decode_hex_encoding, hex_encode_encoding. Qed.

Example hex_encode_0aff01 : hex_encode [x0a; xff; x01] = js "0aff01".
Proof. reflexivity. Qed.

Example decode_0AFf01 : decode_audio (js "0AFf01") = inr [x0a; xff; x01].
Proof. reflexivity. Qed.

Example decode_Hello :
  decode_audio (js "48656c6c6f") = inr [x48; x65; x6c; x6c; x6f]
  /\ map Byte.to_N [x48; x65; x6c; x6c; x6f]
     = map N_of_ascii (list_ascii_of_string "Hello").
Proof. split; reflexivity. Qed.

(** ** [parseInt] at radix 16 *)

Lemma nibble_lt c : nibble c < 16.
Proof. unfold nibble. cmp_cases; simpl; lia. Qed.

Lemma radix_digit_16 c :
  radix_digit 16 c = if is_hex_digit c then Some (nibble c) else None.
Proof.
  unfold radix_digit, digit_value, is_hex_digit, nibble.
  cmp_cases; simpl; cmp_cases; try lia; f_equal; lia.
Qed.

Lemma digits_prefix_16 s : digits_prefix 16 s = map nibble (hex_prefix s).
Proof.
  induction s as [|c s IH]; [done|]. simpl.
  rewrite radix_digit_16. destruct (is_hex_digit c); [|done].
  by rewrite IH.
Qed.

Lemma digits_to_N_nibbles l : digits_to_N 16 (map nibble l) = hex_value l.
Proof.
  unfold digits_to_N, hex_value. generalize 0.
  induction l as [|c l IH]; intros acc; [done|]. simpl. apply IH.
Qed.

Lemma hex_value_bound l : (length l <= 2)%nat -> hex_value l < 256.
Proof.
  destruct l as [|c1 [|c2 [|c3 l]]]; simpl; intros Hl; try lia;
    unfold hex_value; simpl.
  - lia.
  - pose proof (nibble_lt c1). lia.
  - pose proof (nibble_lt c1). pose proof (nibble_lt c2). lia.
Qed.

Lemma hex_prefix_length s : (length (hex_prefix s) <= length s)%nat.
Proof.
  induction s as [|c s IH]; simpl; [lia|].
  destruct (is_hex_digit c); simpl; lia.
Qed.

Lemma trim_start_length s : (length (trim_start s) <= length s)%nat.
Proof.
  induction s as [|c s IH]; simpl; [lia|].
  destruct (is_StrWhiteSpaceChar c); simpl; lia.
Qed.

Lemma skip_sign_length s : (length (skip_sign s) <= length s)%nat.
Proof.
  destruct s as [|c s]; simpl; [lia|].
  destruct (_ || _); simpl; lia.
Qed.

(** [parseInt(g, 16)] spelled with the sign and prefix helpers. *)
Lemma parseInt_16 g :
  parseInt g 16 =
    let t := trim_start g in
    let str := skip_sign t in
    let str :=
      match str with
      | c0 :: c1 :: tl =>
          if (c0 =? 0x30) && ((c1 =? 0x78) || (c1 =? 0x58)) then tl else str
      | _ => str
      end in
    match digits_prefix 16 str with
    | [] => NaN
    | ds => Num ((if has_minus t then -1 else 1) * Z.of_N (digits_to_N 16 ds))
    end.
Proof.
  unfold parseInt. cbn zeta. change ((16 =? 0)%Z) with false.
  cbn [orb andb Z.leb Z.compare Pos.compare Pos.compare_cont].
  change (Z.to_N 16) with 16.
  destruct (trim_start g) as [|c [|c' t]]; simpl; try done.
  - destruct (c =? 0x2B), (c =? 0x2D); done.
  - destruct (c =? 0x2B), (c =? 0x2D); simpl; try done;
      try (destruct t as [|c'' t]; [done|]);
      repeat match goal with
        | |- context [if ?b then (_, _) else (_, _)] => destruct b
        end; done.
Qed.

Lemma ToUint8_signed (neg : bool) v :
  v < 256 ->
  ToUint8 (Num ((if neg then -1 else 1) * Z.of_N v))
  = byte_of_N (if neg then (256 - v) mod 256 else v).
Proof.
  intros Hv. unfold ToUint8. f_equal. destruct neg.
  - destruct (N.eq_dec v 0) as [->|Hnz]; [done|].
    rewrite (N.mod_small (256 - v)) by lia.
    replace (-1 * Z.of_N v)%Z with (- Z.of_N v)%Z by lia.
    rewrite Z.mod_opp_l_nz; try lia.
    all: rewrite Z.mod_small by lia; lia.
  - rewrite Z.mul_1_l, Z.mod_small by lia. lia.
Qed.

(** After the sign: the digits [parseInt] reads from a string of at most two
    code units give the byte of the hex prefix, also where ["0x"] is taken
    for a prefix and the result is NaN. *)
Lemma parse_digits_byte (neg : bool) str :
  (length str <= 2)%nat ->
  ToUint8
    (match digits_prefix 16
             (match str with
              | c0 :: c1 :: tl =>
                  if (c0 =? 0x30) && ((c1 =? 0x78) || (c1 =? 0x58)) then tl
                  else str
              | _ => str
              end) with
     | [] => NaN
     | ds => Num ((if neg then -1 else 1) * Z.of_N (digits_to_N 16 ds))
     end)
  = byte_of_N (let v := hex_value (hex_prefix str) in
               if neg then (256 - v) mod 256 else v).
Proof.
  intros Hlen.
  assert (forall s : js_string, (length s <= 2)%nat ->
    ToUint8 (match digits_prefix 16 s with
             | [] => NaN
             | ds => Num ((if neg then -1 else 1) * Z.of_N (digits_to_N 16 ds))
             end)
    = byte_of_N (let v := hex_value (hex_prefix s) in
                 if neg then (256 - v) mod 256 else v)) as Hplain.
  { intros s Hs. rewrite digits_prefix_16.
    pose proof (hex_prefix_length s) as Hp.
    destruct (hex_prefix s) as [|c l] eqn:E.
    - simpl. by destruct neg.
    - cbn [map]. change (nibble c :: map nibble l) with (map nibble (c :: l)).
      rewrite digits_to_N_nibbles. cbn zeta.
      apply ToUint8_signed, hex_value_bound. lia. }
  destruct str as [|c0 [|c1 [|c2 tl]]]; try (apply Hplain; done).
  - destruct ((c0 =? 0x30) && ((c1 =? 0x78) || (c1 =? 0x58))) eqn:E;
      [|apply Hplain; done].
    apply andb_prop in E as [E0 E1]. apply N.eqb_eq in E0 as ->.
    apply orb_prop in E1 as [E1|E1]; apply N.eqb_eq in E1 as ->;
      by destruct neg.
  - simpl in Hlen. lia.
Qed.

(** A group of [match_all] goes through [parseInt] and [ToUint8] to
    [group_byte]. *)
Lemma parse_group g :
  (length g <= 2)%nat -> ToUint8 (parseInt g 16) = group_byte g.
Proof.
  intros Hg. rewrite parseInt_16. unfold group_byte. cbn zeta.
  apply parse_digits_byte.
  pose proof (trim_start_length g). pose proof (skip_sign_length (trim_start g)).
  lia.
Qed.

Lemma decode_audio_groups s :
  forallb is_LineTerminator s = false ->
  decode_audio s = inr (map group_byte (match_all s)).
Proof.
  intros Hs. unfold decode_audio. rewrite String_match_some by done.
  unfold Uint8Array_from. rewrite map_map. f_equal.
  pose proof (match_all_shape s) as Hsh.
  induction Hsh as [|g gs [Hg _] _ IH]; [done|].
  simpl. f_equal; [|exact IH]. apply parse_group. lia.
Qed.

(** Without white space or a sign in front, [group_byte] is the byte of the
    hex prefix. *)
Lemma group_byte_plain g : plain_group g -> group_byte g = prefix_byte g.
Proof.
  destruct g as [|c g]; [done|]. intros (Hw & Hp & Hm).
  unfold group_byte, prefix_byte. simpl trim_start. rewrite Hw.
  unfold skip_sign, has_minus.
  apply N.eqb_neq in Hp, Hm. by rewrite Hp, Hm.
Qed.

(** ** Strings of hex digits *)

Lemma is_hex_digit_In c :
  is_hex_digit c = true -> In c (js "0123456789abcdefABCDEF").
Proof.
  unfold is_hex_digit. intros H.
  apply orb_prop in H as [H|H]; [apply orb_prop in H as [H|H]|];
    apply andb_prop in H as [H1 H2];
    apply N.leb_le in H1, H2; simpl; lia.
Qed.

Lemma hex_digit_parse d :
  is_hex_digit d = true -> ToUint8 (parseInt [d] 16) = byte_of_N (nibble d).
Proof.
  intros H. apply is_hex_digit_In in H. simpl in H.
  repeat (destruct H as [<-|H]; [reflexivity|]). done.
Qed.

Lemma hex_digits_pair c1 c2 :
  is_hex_digit c1 = true -> is_hex_digit c2 = true ->
  exists uh ul b, hex_pair uh ul b = [c1; c2].
Proof.
  intros H1 H2.
  exists (c1 <? 0x61), (c2 <? 0x61), (byte_of_N (16 * nibble c1 + nibble c2)).
  apply is_hex_digit_In in H1, H2. simpl in H1, H2.
  repeat (destruct H1 as [<-|H1]; [|]); try done;
    repeat (destruct H2 as [<-|H2]; [reflexivity|]); done.
Qed.

Lemma hex_encoding_length s B :
  hex_encoding s B -> length s = (2 * length B)%nat.
Proof. induction 1; simpl in *; lia. Qed.

Lemma hex_encoding_dot s B : hex_encoding s B -> forallb dot s = true.
Proof.
  induction 1 as [|uh ul b s B _ IH]; [done|].
  rewrite forallb_app, IH, hex_pair_dot. done.
Qed.

(** Grouping takes a well-formed encoding pair by pair, whatever follows. *)
Lemma match_all_hex_app s B rest :
  hex_encoding s B -> match_all (s ++ rest) = match_all s ++ match_all rest.
Proof.
  induction 1 as [|uh ul b s B _ IH]; [done|].
  pose proof (hex_pair_dot uh ul b) as Hd.
  unfold hex_pair in *. simpl in Hd.
  apply andb_prop in Hd as [H1 Hd]. apply andb_prop in Hd as [H2 _].
  change (([?a; ?b] ++ s) ++ rest) with (a :: b :: (s ++ rest)).
  change ([?a; ?b] ++ s) with (a :: b :: s).
  rewrite !match_all_pair by done. by rewrite IH.
Qed.

(** A string of hex digits is an encoding, followed by one more digit when
    its length is odd. *)
Lemma hex_string_split (s : js_string) :
  Forall (fun c => is_hex_digit c = true) s ->
  exists s' B, hex_encoding s' B
    /\ (s = s' \/ exists d, is_hex_digit d = true /\ s = s' ++ [d]).
Proof.
  induction s as [|c|c1 c2 s IH _] using js_string_pair_ind; intros Hs.
  - exists [], []. split; [constructor|by left].
  - exists [], []. split; [constructor|]. right. exists c.
    by inversion Hs.
  - inversion Hs as [|? ? Hc1 Hs1]; subst.
    inversion Hs1 as [|? ? Hc2 Hs2]; subst.
    destruct (IH Hs2) as (s' & B & Henc & Hcase).
    destruct (hex_digits_pair c1 c2 Hc1 Hc2) as (uh & ul & b & Hb).
    exists (hex_pair uh ul b ++ s'), (b :: B). split; [by constructor|].
    rewrite Hb. destruct Hcase as [->|(d & Hd & ->)]; [by left|].
    right. by exists d.
Qed.

Lemma odd_hex_string_split (s : js_string) :
  Forall (fun c => is_hex_digit c = true) s -> Nat.Odd (length s) ->
  exists s' B d, hex_encoding s' B /\ is_hex_digit d = true /\ s = s' ++ [d].
Proof.
  intros Hs Hodd.
  destruct (hex_string_split s Hs) as (s' & B & Henc & [->|(d & Hd & ->)]).
  - apply hex_encoding_length in Henc. rewrite Henc in Hodd.
    destruct Hodd as [k Hk]. lia.
  - by exists s', B, d.
Qed.

Lemma decode_hex_encoding_digit s B d :
  hex_encoding s B -> is_hex_digit d = true ->
  decode_audio (s ++ [d]) = inr (B ++ [byte_of_N (nibble d)]).
Proof.
  intros Henc Hd. unfold decode_audio.
  assert (dot d = true) as Hdot.
  { apply is_hex_digit_In in Hd. simpl in Hd.
    repeat (destruct Hd as [<-|Hd]; [reflexivity|]). done. }
  assert (match_all (s ++ [d]) = match_all s ++ [[d]]) as Hm.
  { rewrite (match_all_hex_app s B) by done. simpl. by rewrite Hdot. }
  unfold String_match. rewrite Hm.
  destruct (match_all s ++ [[d]]) as [|g gs] eqn:E.
  { by destruct (match_all s). }
  rewrite <- E. unfold Uint8Array_from. rewrite map_map, map_app. f_equal.
  f_equal; [by apply hex_encoding_groups|].
  simpl. by rewrite hex_digit_parse.
Qed.

(** ** The decoder on the strings of the claims *)

(** C1, at the byte sequence where the round trip breaks: the empty sequence
    is encoded as the empty string, on which [match] returns [null] and
    [null.map] throws, so the decoder raises instead of returning the empty
    sequence.  ([decode_hex_encoding] is the round trip for every other
    sequence.) *)
Theorem roundtrip_empty_raises :
  hex_encoding (hex_encode []) []
  /\ decode_audio (hex_encode []) = inl TypeError
  /\ decode_audio (hex_encode []) <> inr [].
Proof. split; [constructor|]. split; [reflexivity|discriminate]. Qed.

(** C5, as the code has it: an odd-length string of hex digits is not
    rejected and its last digit is not dropped; decoding yields the bytes of
    the leading pairs followed by one more byte, the value of the trailing
    digit. *)
Theorem odd_hex_trailing_digit_decoded (s : js_string) :
  Forall (fun c => is_hex_digit c = true) s ->
  Nat.Odd (length s) ->
  exists B,
    hex_encoding (removelast s) B
    /\ decode_audio s = inr (B ++ [byte_of_N (nibble (List.last s 0))])
    /\ length B = (length s / 2)%nat.
Proof.
  intros Hs Hodd.
  destruct (odd_hex_string_split s Hs Hodd) as (s' & B & d & Henc & Hd & ->).
  exists B. rewrite removelast_last, last_last.
  split; [done|]. split; [by apply decode_hex_encoding_digit|].
  apply hex_encoding_length in Henc.
  rewrite length_app, Henc. cbn [length].
  apply (Nat.div_unique _ 2 _ 1); lia.
Qed.

Lemma odd_hex_trailing_digit_decoded_0af :
  exists B,
    hex_encoding (removelast (js "0af")) B
    /\ decode_audio (js "0af") = inr (B ++ [byte_of_N (nibble (List.last (js "0af") 0))])
    /\ length B = (length (js "0af") / 2)%nat.
Proof.
  apply (odd_hex_trailing_digit_decoded (js "0af")).
  - repeat constructor.
  - exists 1%nat. reflexivity.
Defined.

(** C5 as stated fails at ["0af"]: it decodes to the two bytes 0x0a 0x0f,
    neither an error nor the one byte 0x0a. *)
Lemma odd_hex_0af_not_rejected_or_truncated :
  Forall (fun c => is_hex_digit c = true) (js "0af")
  /\ Nat.Odd (length (js "0af"))
  /\ decode_audio (js "0af") = inr [x0a; x0f]
  /\ ~ rejected_or_truncated (js "0af").
Proof.
  split; [repeat constructor|]. split; [by exists 1%nat|].
  split; [reflexivity|].
  intros [[e He]|(B & Henc & HB)]; [discriminate He|].
  apply hex_encoding_length in Henc.
  assert (B = [x0a; x0f]) as -> by (vm_compute in HB; congruence).
  discriminate Henc.
Qed.

(** C9: on the empty string [match] finds no group and returns [null], so
    [null.map] throws a TypeError; the continuation of [sendAudio] ends in an
    unhandled rejection, no object URL is made and the source of the
    playback element stays what it was. *)
Theorem empty_audio_raises p n data :
  awaiting_json p = S n ->
  get_audio data = inr (Str []) ->
  String_match [] = None
  /\ decode_audio [] = inl TypeError
  /\ exists p',
       step p (JsonResolved data) = Some p'
       /\ unhandled p' = unhandled p ++ [TypeError]
       /\ responseAudio_src p' = responseAudio_src p
       /\ object_urls p' = object_urls p.
Proof.
  intros Hn Hdata. split; [done|]. split; [done|].
  exists (reject TypeError (set_awaiting_json n p)).
  simpl. rewrite Hn. unfold sendAudio_data. rewrite Hdata. done.
Qed.

Lemma empty_audio_raises_after_upload :
  exists p,
    run initial [Click; StreamResolved; Click; StopFired 0; FetchResolved] = Some p
    /\ String_match [] = None
    /\ decode_audio [] = inl TypeError
    /\ exists p',
         step p (JsonResolved (Object [(js "audio", Str [])])) = Some p'
         /\ unhandled p' = unhandled p ++ [TypeError]
         /\ responseAudio_src p' = responseAudio_src p
         /\ object_urls p' = object_urls p.
Proof.
  eexists. split; [vm_compute; reflexivity|].
  apply (empty_audio_raises _ 0 (Object [(js "audio", Str [])]));
    reflexivity.
Defined.

(** C10, as the code has it: a string with at least one code unit that is
    not a line terminator decodes without an error, to one byte per group.
    [parseInt] skips leading white space and honours a sign before it reads
    the hex prefix, so the byte of a group is [group_byte]: the value of the
    hex prefix that follows white space and sign, negated modulo 256 after
    ["-"]; it is the byte of the group's own hex prefix when the group
    starts with neither, and 0 when no hex digit follows. *)
Theorem decode_non_blank_by_groups s :
  forallb is_LineTerminator s = false ->
  decode_audio s = inr (map group_byte (match_all s))
  /\ Forall group_shape (match_all s)
  /\ (forall g, plain_group g -> group_byte g = prefix_byte g)
  /\ (forall g, hex_prefix (skip_sign (trim_start g)) = [] -> group_byte g = x00).
Proof.
  intros Hs. split; [by apply decode_audio_groups|].
  split; [apply match_all_shape|]. split; [apply group_byte_plain|].
  intros g Hg. unfold group_byte. rewrite Hg. by destruct (has_minus _).
Qed.

Lemma decode_non_blank_by_groups_sample :
  decode_audio (js "zz-1 a0xg7") = inr [x00; xff; x0a; x00; x00]
  /\ Forall group_shape (match_all (js "zz-1 a0xg7"))
  /\ (forall g, plain_group g -> group_byte g = prefix_byte g)
  /\ (forall g, hex_prefix (skip_sign (trim_start g)) = [] -> group_byte g = x00).
Proof.
  apply (decode_non_blank_by_groups (js "zz-1 a0xg7")).
  vm_compute. reflexivity.
Defined.

(** C10 as stated fails at ["-1"]: a non-empty string with a character that
    is no hex digit, whose one group has no leading hex digit, and yet the
    byte stored is 0xff, not 0. *)
Lemma minus_one_not_by_hex_prefix :
  js "-1" <> []
  /\ existsb (fun c => negb (is_hex_digit c)) (js "-1") = true
  /\ match_all (js "-1") = [js "-1"]
  /\ hex_prefix (js "-1") = []
  /\ decode_audio (js "-1") = inr [xff]
  /\ ~ decodes_by_hex_prefix (js "-1").
Proof.
  split; [discriminate|]. do 4 (split; [vm_compute; reflexivity|]).
  unfold decodes_by_hex_prefix. vm_compute. discriminate.
Qed.

(** ** The event loop *)

Lemma run_app p t1 t2 :
  run p (t1 ++ t2) = run p t1 ≫= fun p' => run p' t2.
Proof.
  revert p. induction t1 as [|e t1 IH]; intros p; [done|].
  simpl. destruct (step p e) as [p'|]; [apply IH|done].
Qed.

Lemma recorders_onclick_stream p :
  recorders (onclick_stream p) = recorders p ++ [started].
Proof.
  unfold onclick_stream. simpl.
  rewrite !alter_app_r_alt by (rewrite ?length_app; simpl; lia).
  by rewrite Nat.sub_diag.
Qed.

Lemma is_inactive_state m : is_inactive m = true <-> state m = inactive.
Proof. unfold is_inactive. destruct (state m); split; done. Qed.

Lemma step_click_idle p :
  idle p -> step p Click = Some (set_awaiting_stream (S (awaiting_stream p)) p).
Proof.
  intros [H|(r & m & Hr & Hm & Hs)]; simpl; unfold onclick; rewrite ?H; [done|].
  rewrite Hr, Hm. simpl. by rewrite (proj2 (is_inactive_state m) Hs).
Qed.

Lemma step_click_active p r m :
  mediaRecorder p = Some r -> recorders p !! r = Some m -> state m <> inactive ->
  step p Click = Some (set_recorders (alter MediaRecorder_stop r (recorders p)) p).
Proof.
  intros Hr Hm Hs. simpl. unfold onclick. rewrite Hr, Hm. simpl.
  destruct (is_inactive m) eqn:E; [|done].
  by apply is_inactive_state in E.
Qed.

(** [stop()] on a capturing recorder. *)
Lemma MediaRecorder_stop_active m :
  state m <> inactive ->
  MediaRecorder_stop m =
    {| state := inactive; ondataavailable := ondataavailable m;
       onstop := onstop m; stop_queued := true |}.
Proof. unfold MediaRecorder_stop. by destruct (state m). Qed.

(** Starting: a click on an idle page and the stream it waits for. *)
Lemma run_start p :
  idle p ->
  exists p',
    run p [Click; StreamResolved] = Some p'
    /\ mediaRecorder p' = Some (length (recorders p))
    /\ recorders p' = recorders p ++ [started]
    /\ chunks p' = chunks p
    /\ requests p' = requests p
    /\ awaiting_stream p' = awaiting_stream p.
Proof.
  intros Hidle. cbn [run]. rewrite step_click_idle by done. simpl.
  eexists. split; [reflexivity|].
  rewrite recorders_onclick_stream. done.
Qed.

(** Delivery: every chunk fired at a recorder that carries the handler of
    the script ends up at the end of the buffer, and nothing else changes. *)
Lemma run_deliver p r m cs :
  recorders p !! r = Some m -> delivering m ->
  ondataavailable m = Some push_chunk ->
  run p (map (DataAvailable r) cs) = Some (set_chunks (chunks p ++ cs) p).
Proof.
  intros Hm Hd Hh. revert p Hm.
  induction cs as [|c cs IH]; intros p Hm.
  - simpl. rewrite app_nil_r. by destruct p.
  - simpl. rewrite Hm. simpl. unfold delivering in Hd. rewrite Hd, Hh. simpl.
    rewrite IH by done. simpl. by rewrite <- app_assoc.
Qed.

(** The stop event at a recorder whose stop task is queued: [sendAudio] runs
    once, and the task is gone. *)
Lemma step_stop p r m :
  recorders p !! r = Some m -> stop_queued m = true ->
  onstop m = Some sendAudio_handler ->
  step p (StopFired r)
  = Some (sendAudio (set_recorders (alter stop_fired r (recorders p)) p)).
Proof. intros Hm Hq Hh. simpl. rewrite Hm. simpl. by rewrite Hq, Hh. Qed.

Lemma step_stop_none p r m :
  recorders p !! r = Some m -> stop_queued m = false ->
  step p (StopFired r) = None.
Proof. intros Hm Hq. simpl. rewrite Hm. simpl. by rewrite Hq. Qed.

Lemma requests_sendAudio p :
  requests (sendAudio p) = requests p ++ [upload_of (chunks p)].
Proof. reflexivity. Qed.

Lemma delivering_active m : state m <> inactive -> delivering m.
Proof.
  intros H. unfold delivering. destruct (is_inactive m) eqn:E; [|done].
  by apply is_inactive_state in E.
Qed.

(** The rest of a session on the capturing recorder [r]: chunks, the click
    that stops, the chunks flushed by the stop task, the stop event. *)
Lemma run_session p r m cs1 cs2 :
  mediaRecorder p = Some r -> recorders p !! r = Some m ->
  state m <> inactive ->
  ondataavailable m = Some push_chunk -> onstop m = Some sendAudio_handler ->
  exists p',
    run p (map (DataAvailable r) cs1 ++ [Click]
           ++ map (DataAvailable r) cs2 ++ [StopFired r]) = Some p'
    /\ chunks p' = chunks p ++ cs1 ++ cs2
    /\ requests p' = requests p ++ [upload_of (chunks p ++ cs1 ++ cs2)]
    /\ mediaRecorder p' = Some r
    /\ recorders p' = alter stop_fired r (alter MediaRecorder_stop r (recorders p))
    /\ awaiting_stream p' = awaiting_stream p.
Proof.
  intros Hr Hm Hs Hd Hh.
  rewrite run_app, (run_deliver p r m) by auto using delivering_active.
  cbn [mbind option_bind app run].
  rewrite (step_click_active _ r m) by done. cbn [mbind option_bind].
  rewrite run_app.
  rewrite (run_deliver _ r (MediaRecorder_stop m)); cycle 1.
  { cbn. by rewrite list_lookup_alter_eq, Hm. }
  { by rewrite MediaRecorder_stop_active. }
  { by rewrite MediaRecorder_stop_active. }
  cbn [mbind option_bind run].
  rewrite (step_stop _ r (MediaRecorder_stop m)); cycle 1.
  { cbn. by rewrite list_lookup_alter_eq, Hm. }
  { by rewrite MediaRecorder_stop_active. }
  { by rewrite MediaRecorder_stop_active. }
  cbn [mbind option_bind].
  eexists. split; [reflexivity|]. cbn.
  rewrite <- !app_assoc. done.
Qed.

(** One whole cycle from an idle page. *)
Lemma run_cycle p cs :
  idle p ->
  exists p',
    run p (cycle (length (recorders p)) cs) = Some p'
    /\ chunks p' = chunks p ++ cs
    /\ requests p' = requests p ++ [upload_of (chunks p ++ cs)]
    /\ idle p'
    /\ length (recorders p') = S (length (recorders p)).
Proof.
  intros Hidle. unfold cycle. rewrite run_app.
  destruct (run_start p Hidle) as (p1 & -> & Hr1 & Hrs1 & Hc1 & Hq1 & _).
  cbn [mbind option_bind].
  destruct (run_session p1 (length (recorders p)) started cs []) as
    (p2 & Hrun & Hc2 & Hq2 & Hr2 & Hrs2 & _); try done.
  { rewrite Hrs1. by apply list_lookup_middle. }
  exists p2. cbn [map app] in Hrun. rewrite Hrun.
  rewrite Hc2, Hq2, Hc1, Hq1, app_nil_r. do 3 (split; [done|]).
  rewrite Hrs2, !length_alter, Hrs1, length_app. split; [|simpl; lia].
  right. exists (length (recorders p)), (stop_fired (MediaRecorder_stop started)).
  split; [done|]. split; [|done].
  rewrite Hrs2, !list_lookup_alter_eq, Hrs1, list_lookup_middle by done. done.
Qed.

(** ** The claims about capture and upload *)

(** C2: while recorder [r] captures and the buffer starts empty, whatever
    chunks the platform delivers before the click that stops and with the
    stop task after it, the stop event makes [sendAudio] post exactly their
    concatenation, in delivery order. *)
Theorem session_payload_is_concatenation p r m cs1 cs2 :
  chunks p = [] ->
  mediaRecorder p = Some r -> recorders p !! r = Some m ->
  state m <> inactive ->
  ondataavailable m = Some push_chunk -> onstop m = Some sendAudio_handler ->
  exists p' q,
    run p (map (DataAvailable r) cs1 ++ [Click]
           ++ map (DataAvailable r) cs2 ++ [StopFired r]) = Some p'
    /\ requests p' = requests p ++ [q]
    /\ req_method q = "POST"%string
    /\ payloads q = [concat (map blob_bytes (cs1 ++ cs2))].
Proof.
  intros Hc Hr Hm Hs Hd Hh.
  destruct (run_session p r m cs1 cs2) as (p' & Hrun & _ & Hq & _); try done.
  exists p', (upload_of (cs1 ++ cs2)).
  rewrite Hc in Hq. done.
Qed.

Lemma session_payload_is_concatenation_sample :
  exists p,
    run initial [Click; StreamResolved] = Some p
    /\ exists p' q,
         run p (map (DataAvailable 0)
                  [ {| blob_bytes := [x01; x02]; blob_type := "audio/webm" |} ]
                ++ [Click]
                ++ map (DataAvailable 0)
                     [ {| blob_bytes := [x03]; blob_type := "audio/webm" |} ]
                ++ [StopFired 0]) = Some p'
         /\ requests p' = requests p ++ [q]
         /\ req_method q = "POST"%string
         /\ payloads q = [[x01; x02; x03]].
Proof.
  eexists. split; [vm_compute; reflexivity|].
  apply (session_payload_is_concatenation _ 0 started
           [ {| blob_bytes := [x01; x02]; blob_type := "audio/webm" |} ]
           [ {| blob_bytes := [x03]; blob_type := "audio/webm" |} ]);
    first [reflexivity | discriminate].
Defined.

(** ** Any trace: the buffer only grows, each stop event uploads all of it *)

Lemma handlers_installed_step p e p' :
  handlers_installed p -> step p e = Some p' -> handlers_installed p'.
Proof.
  unfold handlers_installed. intros Hp Hstep.
  assert (forall f, (forall m, ondataavailable (f m) = ondataavailable m
                               /\ onstop (f m) = onstop m) ->
          forall r, Forall (fun m => ondataavailable m = Some push_chunk
                                     /\ onstop m = Some sendAudio_handler)
                      (alter f r (recorders p))) as Halter.
  { intros f Hf r. apply Forall_alter; [done|].
    intros m _ [? ?]. destruct (Hf m) as [-> ->]. done. }
  destruct e; simpl in Hstep.
  - unfold onclick in Hstep.
    destruct (mediaRecorder p) as [r|]; [|by inversion Hstep].
    destruct (recorders p !! r) as [m|]; [|done]. simpl in Hstep.
    destruct (is_inactive m); inversion Hstep; subst; [done|]. simpl.
    apply Halter. intros m'. unfold MediaRecorder_stop. by destruct (state m').
  - destruct (awaiting_stream p); inversion Hstep; subst.
    rewrite recorders_onclick_stream. apply Forall_app. split; [done|].
    by repeat constructor.
  - destruct (awaiting_stream p); inversion Hstep; subst. done.
  - destruct (recorders p !! r) as [m|]; [|done]. simpl in Hstep.
    destruct (_ && _); [done|].
    destruct (ondataavailable m) as [[]|]; inversion Hstep; subst; done.
  - destruct (recorders p !! r) as [m|]; [|done]. simpl in Hstep.
    destruct (stop_queued m); [|done].
    destruct (onstop m) as [[]|]; inversion Hstep; subst; simpl;
      by apply Halter.
  - destruct (awaiting_fetch p); inversion Hstep; subst. done.
  - destruct (awaiting_fetch p); inversion Hstep; subst. done.
  - destruct (awaiting_json p); inversion Hstep; subst.
    unfold sendAudio_data. destruct (get_audio data) as [?|v]; [done|].
    by destruct (decode_value v).
  - destruct (awaiting_json p); inversion Hstep; subst. done.
  - destruct (recorders p !! r) as [m|]; [|done]. simpl in Hstep.
    destruct (is_inactive m); inversion Hstep; subst. simpl.
    apply Halter. intros m'. unfold MediaRecorder_stop. by destruct (state m').
  - destruct (awaiting_json p); inversion Hstep; subst. done.
Qed.

Lemma step_buffer_and_uploads p e p' :
  handlers_installed p -> step p e = Some p' ->
  chunks p' = chunks p ++ delivered [e]
  /\ requests p' = requests p ++ uploads (chunks p) [e].
Proof.
  intros Hp Hstep.
  assert (forall r m, recorders p !! r = Some m ->
            ondataavailable m = Some push_chunk
            /\ onstop m = Some sendAudio_handler) as Hh.
  { intros r m Hm. unfold handlers_installed in Hp.
    rewrite Forall_lookup in Hp. by apply (Hp r). }
  destruct e; simpl in Hstep; simpl delivered; simpl uploads;
    rewrite ?app_nil_r.
  - unfold onclick in Hstep.
    destruct (mediaRecorder p) as [r|]; [|by inversion Hstep].
    destruct (recorders p !! r) as [m|]; [|done]. simpl in Hstep.
    destruct (is_inactive m); inversion Hstep; subst; done.
  - destruct (awaiting_stream p); inversion Hstep; subst. done.
  - destruct (awaiting_stream p); inversion Hstep; subst. done.
  - destruct (recorders p !! r) as [m|] eqn:Hm; [|done]. simpl in Hstep.
    destruct (_ && _); [done|].
    destruct (Hh r m Hm) as [Hd _]. rewrite Hd in Hstep.
    inversion Hstep; subst; done.
  - destruct (recorders p !! r) as [m|] eqn:Hm; [|done]. simpl in Hstep.
    destruct (stop_queued m); [|done].
    destruct (Hh r m Hm) as [_ Hs]. rewrite Hs in Hstep.
    inversion Hstep; subst; done.
  - destruct (awaiting_fetch p); inversion Hstep; subst. done.
  - destruct (awaiting_fetch p); inversion Hstep; subst. done.
  - destruct (awaiting_json p); inversion Hstep; subst.
    unfold sendAudio_data. destruct (get_audio data) as [?|v]; [done|].
    by destruct (decode_value v).
  - destruct (awaiting_json p); inversion Hstep; subst. done.
  - destruct (recorders p !! r) as [m|]; [|done]. simpl in Hstep.
    destruct (is_inactive m); inversion Hstep; subst; done.
  - destruct (awaiting_json p); inversion Hstep; subst. done.
Qed.

Lemma delivered_cons e t : delivered (e :: t) = delivered [e] ++ delivered t.
Proof. by destruct e. Qed.

Lemma uploads_cons buffer e t :
  uploads buffer (e :: t)
  = uploads buffer [e] ++ uploads (buffer ++ delivered [e]) t.
Proof. destruct e; simpl; by rewrite ?app_nil_r. Qed.

(** Over a whole trace: the buffer is what it was followed by every chunk
    delivered, and the requests made are those of [uploads]. *)
Lemma run_buffer_and_uploads t p p' :
  handlers_installed p -> run p t = Some p' ->
  handlers_installed p'
  /\ chunks p' = chunks p ++ delivered t
  /\ requests p' = requests p ++ uploads (chunks p) t.
Proof.
  revert p. induction t as [|e t IH]; intros p Hp Hrun.
  - inversion Hrun; subst. simpl. by rewrite !app_nil_r.
  - simpl in Hrun. destruct (step p e) as [p1|] eqn:Hstep; [|done].
    simpl in Hrun.
    destruct (step_buffer_and_uploads p e p1 Hp Hstep) as [Hc Hq].
    destruct (IH p1 (handlers_installed_step p e p1 Hp Hstep) Hrun)
      as (Hp' & Hc' & Hq').
    split; [done|].
    rewrite delivered_cons, uploads_cons, Hc', Hq', Hc, Hq.
    by rewrite <- !app_assoc.
Qed.

Lemma reachable_buffer_and_uploads t p :
  run initial t = Some p ->
  chunks p = delivered t /\ requests p = uploads [] t.
Proof.
  intros Hrun.
  destruct (run_buffer_and_uploads t initial p) as (_ & Hc & Hq);
    [constructor|done|done].
Qed.

(** ** One capture at a time *)

Section filter_index.
Context {A : Type} (P : A -> Prop) `{!forall x, Decision (P x)}.

Lemma filter_none (l : list A) :
  (forall j y, l !! j = Some y -> ~ P y) -> filter P l = [].
Proof.
  induction l as [|x l IH]; intros Hl; [done|].
  rewrite filter_cons_False by apply (Hl 0%nat x eq_refl).
  apply IH. intros j y Hj. by apply (Hl (S j)).
Qed.

(** When [P] holds at one index at most, it holds of one element at
    most. *)
Lemma filter_one_index (l : list A) :
  (forall i j x y, l !! i = Some x -> l !! j = Some y -> P x -> P y -> i = j) ->
  (length (filter P l) <= 1)%nat.
Proof.
  induction l as [|x l IH]; intros Hl; [simpl; lia|].
  destruct (decide (P x)) as [Hx|Hx].
  - rewrite filter_cons_True by done.
    rewrite filter_none; [simpl; lia|].
    intros j y Hj Hy. by specialize (Hl 0%nat (S j) x y eq_refl Hj Hx Hy).
  - rewrite filter_cons_False by done. apply IH.
    intros i j y z Hi Hj Hy Hz.
    by specialize (Hl (S i) (S j) y z Hi Hj Hy Hz) as [= ->].
Qed.
End filter_index.

Lemma one_capture_active_handles p :
  one_capture p -> (length (active_handles p) <= 1)%nat.
Proof.
  intros [_ H]. apply filter_one_index.
  intros i j x y Hi Hj Hx Hy.
  destruct (H i x Hi Hx) as [Hri _]. destruct (H j y Hj Hy) as [Hrj _].
  congruence.
Qed.

Lemma active_stop_fired m : active (stop_fired m) = active m.
Proof. done. Qed.

Lemma active_MediaRecorder_stop m : active (MediaRecorder_stop m) = false.
Proof. unfold MediaRecorder_stop, active, is_inactive. by destruct (state m) eqn:E; simpl; rewrite ?E. Qed.

(** The page fields the invariant reads. *)
Lemma one_capture_same p p' :
  recorders p' = recorders p -> mediaRecorder p' = mediaRecorder p ->
  awaiting_stream p' = awaiting_stream p ->
  one_capture p -> one_capture p'.
Proof. unfold one_capture. by intros -> -> ->. Qed.

Lemma one_capture_step p e p' :
  one_capture p -> (e = Click -> awaiting_stream p = 0%nat) ->
  step p e = Some p' -> one_capture p'.
Proof.
  intros [Hle Hact] Hclick Hstep.
  destruct e; simpl in Hstep.
  - specialize (Hclick eq_refl). unfold onclick in Hstep.
    destruct (mediaRecorder p) as [r0|] eqn:Hr0.
    + destruct (recorders p !! r0) as [m0|] eqn:Hm0; [|done]. simpl in Hstep.
      destruct (is_inactive m0) eqn:Hin; inversion Hstep; subst; clear Hstep.
      * split; [simpl; lia|]. simpl. intros r m Hm Ha.
        destruct (Hact r m Hm Ha) as [Hr _].
        assert (r = r0) as -> by congruence.
        assert (m = m0) as -> by congruence.
        unfold active in Ha. by rewrite Hin in Ha.
      * split; [done|]. simpl. intros r m Hm Ha.
        rewrite list_lookup_alter in Hm. case_decide as Hrr.
        -- subst r. rewrite Hm0 in Hm. simpl in Hm. inversion Hm; subst.
           by rewrite active_MediaRecorder_stop in Ha.
        -- destruct (Hact r m Hm Ha) as [Hr _]. congruence.
    + inversion Hstep; subst. split; [simpl; lia|]. simpl.
      intros r m Hm Ha. destruct (Hact r m Hm Ha) as [Hr _]. congruence.
  - destruct (awaiting_stream p) as [|n] eqn:Hn; inversion Hstep; subst.
    split; [simpl; lia|]. rewrite recorders_onclick_stream. simpl.
    intros r m Hm Ha.
    destruct (decide (r < length (recorders p))%nat) as [Hlt|Hge].
    + rewrite lookup_app_l in Hm by done.
      destruct (Hact r m Hm Ha) as [_ ?]. done.
    + assert (r = length (recorders p)) as ->; [|split; [done|lia]].
      apply lookup_lt_Some in Hm. rewrite length_app in Hm. simpl in Hm. lia.
  - destruct (awaiting_stream p) as [|n] eqn:Hn; inversion Hstep; subst.
    split; [simpl; lia|]. simpl. intros r m Hm Ha.
    destruct (Hact r m Hm Ha) as [_ ?]. done.
  - destruct (recorders p !! r) as [m|]; [|done]. simpl in Hstep.
    destruct (_ && _); [done|].
    destruct (ondataavailable m) as [[]|]; inversion Hstep; subst; done.
  - destruct (recorders p !! r) as [m|] eqn:Hm; [|done]. simpl in Hstep.
    destruct (stop_queued m); [|done].
    assert (one_capture (set_recorders (alter stop_fired r (recorders p)) p)).
    { split; [done|]. simpl. intros r' m' Hm' Ha.
      rewrite list_lookup_alter in Hm'. case_decide as Hrr.
      - subst r'. rewrite Hm in Hm'. simpl in Hm'. inversion Hm'; subst.
        rewrite active_stop_fired in Ha. by apply (Hact r m).
      - by apply (Hact r' m'). }
    destruct (onstop m) as [[]|]; inversion Hstep; subst; done.
  - destruct (awaiting_fetch p); inversion Hstep; subst. done.
  - destruct (awaiting_fetch p); inversion Hstep; subst. done.
  - destruct (awaiting_json p); inversion Hstep; subst.
    unfold sendAudio_data. destruct (get_audio data) as [?|v]; [done|].
    by destruct (decode_value v).
  - destruct (awaiting_json p); inversion Hstep; subst. done.
  - destruct (recorders p !! r) as [m0|] eqn:Hm0; [|done]. simpl in Hstep.
    destruct (is_inactive m0); inversion Hstep; subst; clear Hstep.
    split; [done|]. simpl. intros r' m Hm Ha.
    rewrite list_lookup_alter in Hm. case_decide as Hrr.
    + subst r'. rewrite Hm0 in Hm. simpl in Hm. inversion Hm; subst.
      by rewrite active_MediaRecorder_stop in Ha.
    + by apply (Hact r' m).
  - destruct (awaiting_json p); inversion Hstep; subst. done.
Qed.

Lemma one_capture_run t p p' :
  one_capture p -> clicks_wait p t -> run p t = Some p' -> one_capture p'.
Proof.
  revert p. induction t as [|e t IH]; intros p Hp Hw Hrun.
  - by inversion Hrun; subst.
  - simpl in Hrun, Hw. destruct Hw as [Hclick Hw].
    destruct (step p e) as [p1|] eqn:Hstep; [|done]. simpl in Hrun.
    apply (IH p1); [|done|done]. by apply (one_capture_step p e).
Qed.

(** When every click waits for the acquisition before it to settle, no two
    recorders capture at the same time. *)
Theorem waiting_clicks_one_active t p :
  clicks_wait initial t -> run initial t = Some p ->
  (length (active_handles p) <= 1)%nat.
Proof.
  intros Hw Hrun. apply one_capture_active_handles.
  apply (one_capture_run t initial); [|done|done].
  split; [simpl; lia|]. intros r m Hm. done.
Qed.

(** C6, at the trace where it breaks: two clicks before the first stream is
    there both pass the test of the [if], both handlers resume, and the page
    holds two recorders that capture at the same time; [mediaRecorder] refers
    to the second one only. *)
Theorem double_click_two_active :
  exists p,
    run initial [Click; Click; StreamResolved; StreamResolved] = Some p
    /\ reachable p
    /\ recorders p = [started; started]
    /\ active_handles p = [started; started]
    /\ mediaRecorder p = Some 1%nat
    /\ ~ (length (active_handles p) <= 1)%nat.
Proof.
  eexists. split; [vm_compute; reflexivity|].
  split; [exists [Click; Click; StreamResolved; StreamResolved];
          vm_compute; reflexivity|].
  do 3 (split; [vm_compute; reflexivity|]).
  vm_compute. lia.
Qed.

(** ** The request and the failures *)

(** C7: every run of [sendAudio] calls [fetch] once, with method POST, the
    fixed URL and its [voice_id] parameter, and a form of one part named
    ["audio"], filename ["audio.wav"], type ["audio/wav"], whose bytes are the
    buffered chunks one after the other.  After chunks of 100 and 200 bytes
    and a stop, one request has been made, with a part of 300 bytes. *)
Theorem upload_request_shape p c1 c2 :
  (exists q e,
     requests (sendAudio p) = requests p ++ [q]
     /\ awaiting_fetch (sendAudio p) = S (awaiting_fetch p)
     /\ req_method q = "POST"%string
     /\ req_url q
        = String.append "http://localhost:8000/assistant"
            (String.append "?voice_id=" "your-id-here")
     /\ req_body q = [e]
     /\ entry_name e = "audio"%string
     /\ entry_filename e = "audio.wav"%string
     /\ blob_type (entry_value e) = "audio/wav"%string
     /\ blob_bytes (entry_value e) = concat (map blob_bytes (chunks p)))
  /\ (length (blob_bytes c1) = 100%nat -> length (blob_bytes c2) = 200%nat ->
      exists p' q e,
        run initial (cycle 0 [c1; c2]) = Some p'
        /\ requests p' = [q]
        /\ req_method q = "POST"%string
        /\ req_body q = [e]
        /\ entry_name e = "audio"%string
        /\ entry_filename e = "audio.wav"%string
        /\ blob_bytes (entry_value e) = blob_bytes c1 ++ blob_bytes c2
        /\ length (blob_bytes (entry_value e)) = 300%nat).
Proof.
  split.
  - eexists _, _. repeat split.
  - intros H1 H2.
    destruct (run_cycle initial [c1; c2]) as (p' & Hrun & _ & Hq & _);
      [by left|].
    exists p', (upload_of [c1; c2]). eexists.
    split; [exact Hrun|]. split; [exact Hq|]. do 4 (split; [reflexivity|]).
    cbn. rewrite app_nil_r. split; [done|].
    rewrite length_app. lia.
Qed.

Lemma upload_request_shape_sample :
  exists p' q e,
    run initial
      (cycle 0 [ {| blob_bytes := repeat x00 100; blob_type := "audio/webm" |};
                 {| blob_bytes := repeat xff 200; blob_type := "audio/webm" |} ])
    = Some p'
    /\ requests p' = [q]
    /\ req_method q = "POST"%string
    /\ req_body q = [e]
    /\ entry_name e = "audio"%string
    /\ entry_filename e = "audio.wav"%string
    /\ blob_bytes (entry_value e) = repeat x00 100 ++ repeat xff 200
    /\ length (blob_bytes (entry_value e)) = 300%nat.
Proof.
  assert (length (repeat x00 100) = 100%nat) as H1 by (vm_compute; reflexivity).
  assert (length (repeat xff 200) = 200%nat) as H2 by (vm_compute; reflexivity).
  exact (proj2 (upload_request_shape initial
                  {| blob_bytes := repeat x00 100; blob_type := "audio/webm" |}
                  {| blob_bytes := repeat xff 200; blob_type := "audio/webm" |})
               H1 H2).
Defined.



(** End to end on the response [{"audio":"48656c6c6f"}]: the bytes of
    ["Hello"] become the source of the playback element. *)
Example hello_response_played :
  exists p p',
    run initial [Click; StreamResolved; Click; StopFired 0; FetchResolved] = Some p
    /\ step p (JsonResolved (Object [(js "audio", Str (js "48656c6c6f"))])) = Some p'
    /\ responseAudio_src p' = Some 0%nat
    /\ object_urls p' !! 0%nat
       = Some {| blob_bytes := [x48; x65; x6c; x6c; x6f];
                 blob_type := "audio/wav" |}
    /\ unhandled p' = [].
Proof. eexists _, _. do 4 (split; [vm_compute; reflexivity|]). done. Qed.

(** ** Reachable pages *)

Lemma mediaRecorder_valid_step p e p' :
  mediaRecorder_valid p -> step p e = Some p' -> mediaRecorder_valid p'.
Proof.
  unfold mediaRecorder_valid. intros Hp Hstep.
  assert (forall f r0 r, mediaRecorder p = Some r ->
            is_Some (alter f r0 (recorders p) !! r)) as Halter.
  { intros f r0 r Hr. apply lookup_lt_is_Some. rewrite length_alter.
    apply lookup_lt_is_Some. by apply Hp. }
  destruct e; simpl in Hstep.
  - unfold onclick in Hstep.
    destruct (mediaRecorder p) as [r0|] eqn:Hr0;
      [|inversion Hstep; subst; simpl; by rewrite Hr0].
    destruct (recorders p !! r0) as [m|]; [|done]. simpl in Hstep.
    destruct (is_inactive m); inversion Hstep; subst; simpl.
    + by rewrite Hr0.
    + rewrite Hr0. apply Halter.
  - destruct (awaiting_stream p); inversion Hstep; subst.
    rewrite recorders_onclick_stream. simpl. intros r [= <-].
    rewrite list_lookup_middle by done. by eexists.
  - destruct (awaiting_stream p); inversion Hstep; subst. done.
  - destruct (recorders p !! r) as [m|]; [|done]. simpl in Hstep.
    destruct (_ && _); [done|].
    destruct (ondataavailable m) as [[]|]; inversion Hstep; subst; done.
  - destruct (recorders p !! r) as [m|]; [|done]. simpl in Hstep.
    destruct (stop_queued m); [|done].
    destruct (onstop m) as [[]|]; inversion Hstep; subst; simpl;
      apply Halter.
  - destruct (awaiting_fetch p); inversion Hstep; subst. done.
  - destruct (awaiting_fetch p); inversion Hstep; subst. done.
  - destruct (awaiting_json p); inversion Hstep; subst.
    unfold sendAudio_data. destruct (get_audio data) as [?|v]; [done|].
    by destruct (decode_value v).
  - destruct (awaiting_json p); inversion Hstep; subst. done.
  - destruct (recorders p !! r) as [m|]; [|done]. simpl in Hstep.
    destruct (is_inactive m); inversion Hstep; subst; simpl.
    apply Halter.
  - destruct (awaiting_json p); inversion Hstep; subst. done.
Qed.

Lemma mediaRecorder_valid_run t p p' :
  mediaRecorder_valid p -> run p t = Some p' -> mediaRecorder_valid p'.
Proof.
  revert p. induction t as [|e t IH]; intros p Hp Hrun.
  - by inversion Hrun; subst.
  - simpl in Hrun. destruct (step p e) as [p1|] eqn:Hstep; [|done].
    apply (IH p1); [|done]. by apply (mediaRecorder_valid_step p e).
Qed.

(** On a page the script can be in, every recorder carries the two handlers
    and [mediaRecorder] is undefined or one of them. *)
Lemma reachable_invariants p :
  reachable p -> handlers_installed p /\ mediaRecorder_valid p.
Proof.
  intros [t Hrun]. split.
  - by destruct (run_buffer_and_uploads t initial p) as [? _];
      [constructor|done|].
  - apply (mediaRecorder_valid_run t initial); [|done]. by intros r.
Qed.

(** There, a click always finds one of the two branches of the handler: the
    page is idle, or its recorder captures and carries the handlers. *)
Lemma reachable_click p :
  reachable p ->
  is_Some (step p Click)
  /\ (idle p
      \/ exists r m, mediaRecorder p = Some r /\ recorders p !! r = Some m
           /\ state m <> inactive
           /\ ondataavailable m = Some push_chunk
           /\ onstop m = Some sendAudio_handler).
Proof.
  intros Hp. destruct (reachable_invariants p Hp) as [Hh Hv].
  destruct (mediaRecorder p) as [r|] eqn:Hr.
  - destruct (Hv r Hr) as [m Hm].
    assert (state m = inactive \/ state m <> inactive) as [Hs|Hs]
      by (destruct (state m); auto).
    + assert (idle p) as Hidle by (right; by exists r, m).
      split; [|by left]. rewrite step_click_idle by done. by eexists.
    + split; [erewrite step_click_active by done; by eexists|].
      right. exists r, m. do 3 (split; [done|]).
      unfold handlers_installed in Hh. rewrite Forall_lookup in Hh.
      by apply (Hh r).
  - assert (idle p) as Hidle by by left.
    split; [|by left]. rewrite step_click_idle by done. by eexists.
Qed.

(** ** Two sessions, and the toggle *)

Lemma uploads_app buffer t1 t2 :
  uploads buffer (t1 ++ t2)
  = uploads buffer t1 ++ uploads (buffer ++ delivered t1) t2.
Proof.
  revert buffer. induction t1 as [|e t1 IH]; intros buffer.
  - simpl. by rewrite app_nil_r.
  - destruct e; simpl; rewrite IH; try done.
    by rewrite <- app_assoc.
Qed.

Lemma uploads_no_stop buffer t : no_stop t -> uploads buffer t = [].
Proof.
  unfold no_stop. revert buffer. induction t as [|e t IH]; intros buffer H;
    [done|].
  simpl in H. apply andb_prop in H as [He Ht].
  destruct e; simpl in *; try done; by apply IH.
Qed.

(** One whole session from an idle page. *)
Lemma run_whole_session p recorded flushed :
  idle p ->
  exists p',
    run p (session (length (recorders p)) recorded flushed) = Some p'
    /\ chunks p' = chunks p ++ recorded ++ flushed
    /\ requests p' = requests p ++ [upload_of (chunks p ++ recorded ++ flushed)]
    /\ idle p'
    /\ length (recorders p') = S (length (recorders p)).
Proof.
  intros Hidle. unfold session. rewrite run_app.
  destruct (run_start p Hidle) as (p1 & -> & Hr1 & Hrs1 & Hc1 & Hq1 & _).
  cbn [mbind option_bind].
  destruct (run_session p1 (length (recorders p)) started recorded flushed) as
    (p2 & Hrun & Hc2 & Hq2 & Hr2 & Hrs2 & _); try done.
  { rewrite Hrs1. by apply list_lookup_middle. }
  exists p2. rewrite Hrun.
  rewrite Hc2, Hq2, Hc1, Hq1. do 3 (split; [done|]).
  rewrite Hrs2, !length_alter, Hrs1, length_app. split; [|simpl; lia].
  right. exists (length (recorders p)), (stop_fired (MediaRecorder_stop started)).
  split; [done|]. split; [|done].
  rewrite Hrs2, !list_lookup_alter_eq, Hrs1, list_lookup_middle by done. done.
Qed.

(** C3: nothing clears [chunks].  Two sessions in a row from an idle page
    with an empty buffer, each with chunks delivered while it records and
    chunks delivered with its stop task, make two uploads; the second one
    carries the chunks of the first session followed by those of the second,
    which is more than the second session's own chunks as soon as the first
    delivered a byte.  The same holds of any run of events with two stop
    events, whatever else happens in between: from a page with an empty
    buffer whose recorders carry the script's handlers, the second upload is
    every chunk delivered before the first stop event followed by every
    chunk delivered between the two. *)
Theorem second_upload_repeats_first_session p a1 b1 a2 b2 :
  (idle p -> chunks p = [] ->
   exists p' q1 q2,
     run p (session (length (recorders p)) a1 b1
            ++ session (S (length (recorders p))) a2 b2) = Some p'
     /\ requests p' = requests p ++ [q1; q2]
     /\ payloads q1 = [concat (map blob_bytes (a1 ++ b1))]
     /\ payloads q2 = [concat (map blob_bytes (a1 ++ b1))
                       ++ concat (map blob_bytes (a2 ++ b2))]
     /\ chunks p' = (a1 ++ b1) ++ (a2 ++ b2)
     /\ (concat (map blob_bytes (a1 ++ b1)) <> [] ->
         payloads q2 <> [concat (map blob_bytes (a2 ++ b2))]))
  /\ (forall t1 r1 t2 r2 p',
        handlers_installed p -> chunks p = [] ->
        no_stop t1 -> no_stop t2 ->
        run p (t1 ++ StopFired r1 :: t2 ++ [StopFired r2]) = Some p' ->
        exists q1 q2,
          requests p' = requests p ++ [q1; q2]
          /\ payloads q1 = [concat (map blob_bytes (delivered t1))]
          /\ payloads q2 = [concat (map blob_bytes (delivered t1))
                            ++ concat (map blob_bytes (delivered t2))]
          /\ chunks p' = delivered t1 ++ delivered t2).
Proof.
  split.
  - intros Hidle Hc. rewrite run_app.
    destruct (run_whole_session p a1 b1 Hidle)
      as (p1 & -> & Hc1 & Hq1 & Hidle1 & Hlen).
    cbn [mbind option_bind]. rewrite <- Hlen.
    destruct (run_whole_session p1 a2 b2 Hidle1) as (p2 & -> & Hc2 & Hq2 & _).
    rewrite Hc in Hc1, Hq1. cbn [app] in Hc1, Hq1.
    rewrite Hc1 in Hc2, Hq2. rewrite Hq1 in Hq2.
    exists p2, (upload_of (a1 ++ b1)), (upload_of ((a1 ++ b1) ++ a2 ++ b2)).
    split; [done|]. split; [by rewrite Hq2, <- app_assoc|].
    split; [done|]. unfold payloads. cbn.
    rewrite (map_app _ (a1 ++ b1)), concat_app. do 2 (split; [done|]).
    intros Hne Heq. apply Hne.
    injection Heq as Heq.
    apply (app_inv_tail (concat (map blob_bytes (a2 ++ b2))) _ []). exact Heq.
  - intros t1 r1 t2 r2 p' Hh Hc H1 H2 Hrun.
    destruct (run_buffer_and_uploads _ p p' Hh Hrun) as (_ & Hch & Hq).
    rewrite Hc in Hch, Hq. cbn [app] in Hch, Hq.
    exists (upload_of (delivered t1)),
           (upload_of (delivered t1 ++ delivered t2)).
    split.
    { rewrite Hq. f_equal.
      rewrite uploads_app, (uploads_no_stop _ t1) by done. cbn [app uploads].
      f_equal. rewrite uploads_app, (uploads_no_stop _ t2) by done.
      done. }
    split; [done|]. split.
    { unfold payloads. cbn. by rewrite map_app, concat_app. }
    rewrite Hch. clear.
    induction t1 as [|e t1 IH]; simpl.
    + induction t2 as [|e t2 IH]; [done|]. destruct e; simpl; by rewrite ?IH.
    + destruct e; simpl; by rewrite ?IH.
Qed.

Lemma second_upload_repeats_first_session_sample :
  (exists p' q1 q2,
     run initial
       (session 0 [] [ {| blob_bytes := [x01; x02]; blob_type := "audio/webm" |} ]
        ++ session 1 [] [ {| blob_bytes := [x03]; blob_type := "audio/webm" |} ])
     = Some p'
     /\ requests p' = [q1; q2]
     /\ payloads q1 = [[x01; x02]]
     /\ payloads q2 = [[x01; x02; x03]]
     /\ chunks p' = [ {| blob_bytes := [x01; x02]; blob_type := "audio/webm" |};
                      {| blob_bytes := [x03]; blob_type := "audio/webm" |} ]
     /\ ([x01; x02] <> [] -> payloads q2 <> [[x03]]))
  /\ (exists p' q1 q2,
        run initial
          ([Click; StreamResolved; Click;
            DataAvailable 0 {| blob_bytes := [x01]; blob_type := "audio/webm" |}]
           ++ StopFired 0
           :: [Click; FetchResolved; StreamResolved; Click; JsonRejected;
               DataAvailable 1 {| blob_bytes := [x02]; blob_type := "audio/webm" |}]
           ++ [StopFired 1]) = Some p'
        /\ requests p' = [q1; q2]
        /\ payloads q1 = [[x01]]
        /\ payloads q2 = [[x01; x02]]).
Proof.
  split.
  - apply (proj1 (second_upload_repeats_first_session initial
             [] [ {| blob_bytes := [x01; x02]; blob_type := "audio/webm" |} ]
             [] [ {| blob_bytes := [x03]; blob_type := "audio/webm" |} ])).
    + by left.
    + reflexivity.
  - destruct (run initial
          ([Click; StreamResolved; Click;
            DataAvailable 0 {| blob_bytes := [x01]; blob_type := "audio/webm" |}]
           ++ StopFired 0
           :: [Click; FetchResolved; StreamResolved; Click; JsonRejected;
               DataAvailable 1 {| blob_bytes := [x02]; blob_type := "audio/webm" |}]
           ++ [StopFired 1])) as [p'|] eqn:Hrun;
      [|vm_compute in Hrun; discriminate].
    destruct (proj2 (second_upload_repeats_first_session initial [] [] [] [])
                [Click; StreamResolved; Click;
                 DataAvailable 0 {| blob_bytes := [x01]; blob_type := "audio/webm" |}]
                0%nat
                [Click; FetchResolved; StreamResolved; Click; JsonRejected;
                 DataAvailable 1 {| blob_bytes := [x02]; blob_type := "audio/webm" |}]
                1%nat p' ltac:(constructor) eq_refl eq_refl eq_refl Hrun)
      as (q1 & q2 & Hq & H1 & H2 & _).
    exists p', q1, q2. split; [reflexivity|]. split; [exact Hq|].
    split; [exact H1|exact H2].
Defined.

(** The chunks delivered with the stop task, then the stop event. *)
Lemma run_flush_and_stop p r m cs :
  recorders p !! r = Some m -> stop_queued m = true ->
  ondataavailable m = Some push_chunk -> onstop m = Some sendAudio_handler ->
  exists p',
    run p (map (DataAvailable r) cs ++ [StopFired r]) = Some p'
    /\ chunks p' = chunks p ++ cs
    /\ requests p' = requests p ++ [upload_of (chunks p ++ cs)]
    /\ recorders p' = alter stop_fired r (recorders p)
    /\ mediaRecorder p' = mediaRecorder p
    /\ awaiting_stream p' = awaiting_stream p.
Proof.
  intros Hm Hq Hd Hh. rewrite run_app.
  rewrite (run_deliver p r m); [|done| |done].
  2: { unfold delivering. rewrite Hq. by destruct (is_inactive m). }
  cbn [mbind option_bind run].
  rewrite (step_stop _ r m) by done. cbn [mbind option_bind].
  eexists. split; [reflexivity|]. done.
Qed.

(** C4: the two branches of the click handler.  On an idle page (no
    recorder yet, or an inactive one) a click asks for the microphone and,
    once the stream is there, a new recorder is made the current one, is
    given the two handlers and records; the chunks delivered to it are
    appended to the buffer, in order, and nothing else changes.  On a page
    whose recorder is active a click stops it: it is inactive at once and no
    upload has happened yet; the chunks the stop task delivers are appended
    too, and the stop event that follows runs [sendAudio] once: one more
    request, which carries the whole buffer, and the event cannot fire
    again. *)
Theorem toggle_behaviour p :
  (idle p ->
   exists p1 p2,
     step p Click = Some p1
     /\ recorders p1 = recorders p
     /\ mediaRecorder p1 = mediaRecorder p
     /\ chunks p1 = chunks p
     /\ requests p1 = requests p
     /\ awaiting_stream p1 = S (awaiting_stream p)
     /\ step p1 StreamResolved = Some p2
     /\ mediaRecorder p2 = Some (length (recorders p))
     /\ recorders p2
        = recorders p ++ [ {| state := recording;
                              ondataavailable := Some push_chunk;
                              onstop := Some sendAudio_handler;
                              stop_queued := false |} ]
     /\ chunks p2 = chunks p
     /\ requests p2 = requests p
     /\ awaiting_stream p2 = awaiting_stream p
     /\ forall cs,
          exists p3,
            run p2 (map (DataAvailable (length (recorders p))) cs) = Some p3
            /\ chunks p3 = chunks p ++ cs
            /\ recorders p3 = recorders p2
            /\ mediaRecorder p3 = mediaRecorder p2
            /\ requests p3 = requests p)
  /\ (forall r m,
        mediaRecorder p = Some r -> recorders p !! r = Some m ->
        state m <> inactive ->
        ondataavailable m = Some push_chunk ->
        onstop m = Some sendAudio_handler ->
        exists p1,
          step p Click = Some p1
          /\ recorders p1 !! r
             = Some {| state := inactive; ondataavailable := ondataavailable m;
                       onstop := onstop m; stop_queued := true |}
          /\ length (recorders p1) = length (recorders p)
          /\ mediaRecorder p1 = mediaRecorder p
          /\ chunks p1 = chunks p
          /\ requests p1 = requests p
          /\ awaiting_stream p1 = awaiting_stream p
          /\ forall cs,
               exists p2 q,
                 run p1 (map (DataAvailable r) cs ++ [StopFired r]) = Some p2
                 /\ chunks p2 = chunks p ++ cs
                 /\ requests p2 = requests p ++ [q]
                 /\ req_method q = "POST"%string
                 /\ payloads q = [concat (map blob_bytes (chunks p ++ cs))]
                 /\ recorders p2 !! r
                    = Some {| state := inactive;
                              ondataavailable := ondataavailable m;
                              onstop := onstop m; stop_queued := false |}
                 /\ step p2 (StopFired r) = None).
Proof.
  split.
  - intros Hidle.
    exists (set_awaiting_stream (S (awaiting_stream p)) p),
           (onclick_stream (set_awaiting_stream (awaiting_stream p)
                              (set_awaiting_stream (S (awaiting_stream p)) p))).
    split; [by apply step_click_idle|]. do 5 (split; [done|]).
    split; [done|]. rewrite recorders_onclick_stream.
    do 5 (split; [done|]). intros cs.
    rewrite (run_deliver _ _ started); [| |done|done].
    + eexists. split; [reflexivity|]. split; [done|].
      split; [exact (recorders_onclick_stream _)|]. done.
    + rewrite recorders_onclick_stream. by apply list_lookup_middle.
  - intros r m Hr Hm Hs Hd Hh.
    pose (m1 := {| state := inactive; ondataavailable := ondataavailable m;
                   onstop := onstop m; stop_queued := true |}).
    pose (p1 := set_recorders (alter MediaRecorder_stop r (recorders p)) p).
    assert (recorders p1 !! r = Some m1) as Hm1.
    { cbn. rewrite list_lookup_alter_eq, Hm. cbn.
      by rewrite MediaRecorder_stop_active. }
    exists p1. split; [by apply (step_click_active p r m)|].
    split; [done|]. split; [apply length_alter|]. do 4 (split; [done|]).
    intros cs.
    destruct (run_flush_and_stop p1 r m1 cs Hm1 eq_refl Hd Hh)
      as (p2 & Hrun & Hc2 & Hq2 & Hrs2 & _).
    exists p2, (upload_of (chunks p ++ cs)).
    split; [done|]. do 4 (split; [done|]).
    assert (recorders p2 !! r = Some (stop_fired m1)) as Hm2
      by (by rewrite Hrs2, list_lookup_alter_eq, Hm1).
    split; [done|]. by apply (step_stop_none _ r (stop_fired m1)).
Qed.

Lemma toggle_behaviour_sample :
  (exists p1 p2,
     step initial Click = Some p1
     /\ recorders p1 = []
     /\ mediaRecorder p1 = None
     /\ chunks p1 = []
     /\ requests p1 = []
     /\ awaiting_stream p1 = 1%nat
     /\ step p1 StreamResolved = Some p2
     /\ mediaRecorder p2 = Some 0%nat
     /\ recorders p2
        = [ {| state := recording; ondataavailable := Some push_chunk;
               onstop := Some sendAudio_handler; stop_queued := false |} ]
     /\ chunks p2 = []
     /\ requests p2 = []
     /\ awaiting_stream p2 = 0%nat
     /\ forall cs,
          exists p3,
            run p2 (map (DataAvailable 0) cs) = Some p3
            /\ chunks p3 = cs
            /\ recorders p3 = recorders p2
            /\ mediaRecorder p3 = mediaRecorder p2
            /\ requests p3 = [])
  /\ (exists p,
        run initial [Click; StreamResolved] = Some p
        /\ exists p1,
             step p Click = Some p1
             /\ recorders p1 !! 0%nat
                = Some {| state := inactive; ondataavailable := Some push_chunk;
                          onstop := Some sendAudio_handler; stop_queued := true |}
             /\ length (recorders p1) = length (recorders p)
             /\ mediaRecorder p1 = mediaRecorder p
             /\ chunks p1 = chunks p
             /\ requests p1 = requests p
             /\ awaiting_stream p1 = awaiting_stream p
             /\ forall cs,
                  exists p2 q,
                    run p1 (map (DataAvailable 0) cs ++ [StopFired 0]) = Some p2
                    /\ chunks p2 = chunks p ++ cs
                    /\ requests p2 = requests p ++ [q]
                    /\ req_method q = "POST"%string
                    /\ payloads q = [concat (map blob_bytes (chunks p ++ cs))]
                    /\ recorders p2 !! 0%nat
                       = Some {| state := inactive;
                                 ondataavailable := Some push_chunk;
                                 onstop := Some sendAudio_handler;
                                 stop_queued := false |}
                    /\ step p2 (StopFired 0) = None).
Proof.
  split.
  - apply (proj1 (toggle_behaviour initial)). by left.
  - eexists. split; [vm_compute; reflexivity|].
    apply (proj2 (toggle_behaviour _) 0%nat started);
      first [reflexivity | discriminate].
Defined.

(** * Further properties of the script *)

(** ** The decoder *)

(** X1: a string that spells a non-empty byte sequence as two hex digits per
    byte, each digit in either case, decodes to that sequence; so does the
    lowercase encoding [hex_encode]. *)
Theorem hex_roundtrip_nonempty s B :
  hex_encoding s B -> B <> [] ->
  decode_audio s = inr B /\ decode_audio (hex_encode B) = inr B.
Proof.
  intros Hs HB. split; [by apply decode_hex_encoding|].
  by apply decode_hex_encoding; [apply hex_encode_encoding|].
Qed.

Lemma hex_roundtrip_nonempty_sample :
  decode_audio (js "0AfF01") = inr [x0a; xff; x01]
  /\ decode_audio (hex_encode [x0a; xff; x01]) = inr [x0a; xff; x01].
Proof.
  apply (hex_roundtrip_nonempty (js "0AfF01") [x0a; xff; x01]);
    [|discriminate].
  change (js "0AfF01")
    with (hex_pair false true x0a ++ hex_pair false true xff
          ++ hex_pair false false x01 ++ []).
  repeat constructor.
Defined.

Lemma match_all_skip lts s :
  forallb is_LineTerminator lts = true -> match_all (lts ++ s) = match_all s.
Proof.
  induction lts as [|c lts IH]; [done|]. simpl app. intros H.
  apply andb_prop in H as [Hc Hl]. simpl. unfold dot. rewrite Hc. simpl.
  by apply IH.
Qed.

(** X2: line terminators between the byte pairs of the hex string are
    skipped by the grouping, so the bytes before and after them are decoded
    as if they were not there; a line terminator inside a pair splits it into
    two bytes, one per digit. *)
Theorem line_terminators_between_pairs s1 B1 lts s2 B2 d1 d2 :
  hex_encoding s1 B1 -> hex_encoding s2 B2 ->
  forallb is_LineTerminator lts = true -> lts <> [] ->
  is_hex_digit d1 = true -> is_hex_digit d2 = true ->
  (B1 ++ B2 <> [] -> decode_audio (s1 ++ lts ++ s2) = inr (B1 ++ B2))
  /\ decode_audio ([d1] ++ lts ++ [d2])
     = inr [byte_of_N (nibble d1); byte_of_N (nibble d2)].
Proof.
  intros H1 H2 Hl Hne Hd1 Hd2. split.
  - intros HB. unfold decode_audio, String_match.
    rewrite (match_all_hex_app s1 B1) by done. rewrite match_all_skip by done.
    pose proof (hex_encoding_groups s1 B1 H1) as G1.
    pose proof (hex_encoding_groups s2 B2 H2) as G2.
    destruct (match_all s1 ++ match_all s2) as [|g gs] eqn:E.
    + apply app_eq_nil in E as [E1 E2]. rewrite E1 in G1. rewrite E2 in G2.
      simpl in G1, G2. subst. done.
    + rewrite <- E. unfold Uint8Array_from. rewrite map_map, map_app.
      f_equal. by f_equal.
  - assert (forall d, is_hex_digit d = true -> dot d = true) as Hdot.
    { intros d Hd. apply is_hex_digit_In in Hd. simpl in Hd.
      repeat (destruct Hd as [<-|Hd]; [reflexivity|]). done. }
    destruct lts as [|c lts]; [done|]. simpl in Hl.
    apply andb_prop in Hl as [Hc Hl].
    unfold decode_audio, String_match. simpl app.
    assert (match_all (d1 :: c :: lts ++ [d2]) = [[d1]; [d2]]) as ->.
    { simpl. rewrite (Hdot d1 Hd1). unfold dot at 1. rewrite Hc. simpl.
      unfold dot at 1. rewrite Hc. simpl.
      rewrite match_all_skip by done. simpl. by rewrite (Hdot d2 Hd2). }
    unfold Uint8Array_from. simpl map.
    by rewrite !hex_digit_parse.
Qed.

Lemma line_terminators_between_pairs_sample :
  (([x0a] ++ [xff] : list byte) <> [] ->
   decode_audio (js "0a" ++ [0x0D; 0x0A] ++ js "ff") = inr ([x0a] ++ [xff]))
  /\ decode_audio ([0x30] ++ [0x0D; 0x0A] ++ [0x61])
     = inr [byte_of_N (nibble 0x30); byte_of_N (nibble 0x61)].
Proof.
  apply (line_terminators_between_pairs (js "0a") [x0a] [0x0D; 0x0A]
           (js "ff") [xff] 0x30 0x61);
    try reflexivity; try discriminate.
  - change (js "0a") with (hex_pair false false x0a ++ []).
    repeat constructor.
  - change (js "ff") with (hex_pair false false xff ++ []).
    repeat constructor.
Defined.

(** X3: the decoder raises exactly on the strings without any code unit
    other than a line terminator, the empty string among them; on every
    other string it returns at least one byte. *)
Theorem decode_raises_iff_blank s :
  (decode_audio s = inl TypeError <-> forallb is_LineTerminator s = true)
  /\ (forall bytes, decode_audio s = inr bytes -> bytes <> []).
Proof.
  unfold decode_audio, String_match. split.
  - rewrite <- match_all_nil. by destruct (match_all s).
  - intros bytes. by destruct (match_all s); intros [= <-].
Qed.

Lemma decode_raises_iff_blank_sample :
  decode_audio [0x0D; 0x0A] = inl TypeError
  /\ ([xff] : list byte) <> [].
Proof.
  split.
  - apply (proj2 (proj1 (decode_raises_iff_blank [0x0D; 0x0A]))).
    vm_compute. reflexivity.
  - apply (proj2 (decode_raises_iff_blank (js "ff")) [xff]).
    vm_compute. reflexivity.
Defined.

Lemma match_all_length (s : js_string) :
  forallb dot s = true ->
  (length s <= 2 * length (match_all s) <= length s + 1)%nat.
Proof.
  induction s as [|c|c1 c2 s IH _] using js_string_pair_ind; intros H.
  - simpl. lia.
  - simpl in *. rewrite andb_true_r in H. rewrite H. simpl. lia.
  - simpl in H. apply andb_prop in H as [H1 H]. apply andb_prop in H as [H2 H].
    rewrite match_all_pair by done. specialize (IH H). simpl. lia.
Qed.

(** X4: on a non-empty string without line terminators the decoder returns
    one byte for every two code units, and one more for a last single one:
    as many bytes as half the length, rounded up. *)
Theorem decoded_length (s : js_string) :
  s <> [] -> forallb dot s = true ->
  exists bytes,
    decode_audio s = inr bytes
    /\ (length s <= 2 * length bytes <= length s + 1)%nat.
Proof.
  intros Hne Hdot.
  assert (forallb is_LineTerminator s = false) as Hs.
  { destruct s as [|c s]; [done|]. simpl in *.
    apply andb_prop in Hdot as [Hc _]. unfold dot in Hc.
    by destruct (is_LineTerminator c). }
  rewrite decode_audio_groups by done. eexists. split; [done|].
  rewrite length_map. by apply match_all_length.
Qed.

Lemma decoded_length_sample :
  exists bytes,
    decode_audio (js "0af") = inr bytes
    /\ (length (js "0af") <= 2 * length bytes <= length (js "0af") + 1)%nat.
Proof.
  apply (decoded_length (js "0af")); [discriminate|reflexivity].
Defined.

(** ** Playback *)

Lemma get_audio_error data e : get_audio data = inl e -> e = TypeError.
Proof. destruct data; simpl; congruence. Qed.

Lemma decode_value_error v e : decode_value v = inl e -> e = TypeError.
Proof.
  destruct v; simpl; try congruence.
  unfold decode_audio. destruct (String_match s); congruence.
Qed.

(** X5: the response is not validated.  Whatever string [audio] holds, as
    long as one of its code units is not a line terminator, the continuation
    of [sendAudio] does not reject: it makes one more object URL, for a blob
    of type ["audio/wav"] with one byte per group of the string, and assigns
    it to the playback element; no hex digit is needed for that. *)
Theorem any_visible_audio_is_played p n data s :
  awaiting_json p = S n ->
  get_audio data = inr (Str s) ->
  forallb is_LineTerminator s = false ->
  exists p',
    step p (JsonResolved data) = Some p'
    /\ unhandled p' = unhandled p
    /\ object_urls p'
       = object_urls p ++ [ {| blob_bytes := map group_byte (match_all s);
                               blob_type := "audio/wav" |} ]
    /\ responseAudio_src p' = Some (length (object_urls p))
    /\ match_all s <> [].
Proof.
  intros Hn Hdata Hs. simpl. rewrite Hn. unfold sendAudio_data.
  rewrite Hdata. simpl. rewrite decode_audio_groups by done.
  eexists. split; [reflexivity|]. do 3 (split; [done|]).
  intros E. apply match_all_nil in E. congruence.
Qed.

Lemma any_visible_audio_is_played_sample :
  exists p,
    run initial [Click; StreamResolved; Click; StopFired 0; FetchResolved] = Some p
    /\ exists p',
         step p (JsonResolved (Object [(js "audio", Str (js "oops"))])) = Some p'
         /\ unhandled p' = unhandled p
         /\ object_urls p'
            = object_urls p ++ [ {| blob_bytes := [x00; x00];
                                    blob_type := "audio/wav" |} ]
         /\ responseAudio_src p' = Some (length (object_urls p))
         /\ match_all (js "oops") <> [].
Proof.
  eexists. split; [vm_compute; reflexivity|].
  apply (any_visible_audio_is_played _ 0%nat
           (Object [(js "audio", Str (js "oops"))]) (js "oops"));
    reflexivity.
Defined.

Lemma src_latest_step p e p' :
  src_latest p -> step p e = Some p' -> src_latest p'.
Proof.
  intros Hp Hstep. step_cases Hstep; try exact Hp.
  unfold src_latest. simpl. rewrite length_app. simpl. lia.
Qed.

(** X6: on every page the script reaches, the playback element has no
    source while no response has been decoded, and afterwards its source is
    the object URL of the response decoded last. *)
Theorem reachable_src_latest p : reachable p -> src_latest p.
Proof.
  intros [t Hrun]. assert (src_latest initial) as Hinit by done.
  revert Hinit Hrun. generalize initial. induction t as [|e t IH]; intros q Hq Hrun.
  - by inversion Hrun; subst.
  - simpl in Hrun. destruct (step q e) as [q1|] eqn:Hstep; [|done].
    apply (IH q1); [|done]. by apply (src_latest_step q e).
Qed.

Lemma reachable_src_latest_sample :
  exists p,
    run initial [Click; StreamResolved; Click; StopFired 0; FetchResolved;
                 JsonResolved (Object [(js "audio", Str (js "48656c6c6f"))])]
    = Some p
    /\ responseAudio_src p = Some 0%nat
    /\ src_latest p.
Proof.
  eexists. split; [vm_compute; reflexivity|]. split; [reflexivity|].
  apply reachable_src_latest.
  exists [Click; StreamResolved; Click; StopFired 0; FetchResolved;
          JsonResolved (Object [(js "audio", Str (js "48656c6c6f"))])].
  vm_compute. reflexivity.
Defined.

Lemma object_urls_step p e p' :
  step p e = Some p' -> exists more, object_urls p' = object_urls p ++ more.
Proof.
  intros Hstep. step_cases Hstep; simpl;
    first [by exists []; rewrite app_nil_r | by eexists].
Qed.

(** X7: no object URL is ever revoked or replaced: over any run of events
    the registry of object URLs only grows at its end, so every blob a
    response was decoded into stays referenced. *)
Theorem object_urls_never_revoked t p p' :
  run p t = Some p' -> exists more, object_urls p' = object_urls p ++ more.
Proof.
  revert p. induction t as [|e t IH]; intros p Hrun.
  - inversion Hrun; subst. exists []. by rewrite app_nil_r.
  - simpl in Hrun. destruct (step p e) as [p1|] eqn:Hstep; [|done].
    destruct (object_urls_step p e p1 Hstep) as [m1 H1].
    destruct (IH p1 Hrun) as [m2 H2].
    exists (m1 ++ m2). by rewrite H2, H1, app_assoc.
Qed.

Lemma object_urls_never_revoked_sample :
  exists p p',
    run initial [Click; StreamResolved; Click; StopFired 0; FetchResolved;
                 JsonResolved (Object [(js "audio", Str (js "00"))])] = Some p
    /\ run p [Click; StreamResolved; Click; StopFired 1; FetchResolved;
              JsonResolved (Object [(js "audio", Str (js "ff"))])] = Some p'
    /\ exists more, object_urls p' = object_urls p ++ more.
Proof.
  eexists _, _. split; [vm_compute; reflexivity|].
  assert (forall q q' t, run q t = Some q' ->
            run q t = Some q' /\ exists more, object_urls q' = object_urls q ++ more)
    as H by (intros q q' t Hq; split;
             [exact Hq | exact (object_urls_never_revoked t q q' Hq)]).
  apply H. vm_compute. reflexivity.
Defined.

(** ** Accounting of the uploads *)

Lemma upload_failures_snoc es e :
  upload_failures (es ++ [e])
  = (upload_failures es + if upload_failure e then 1 else 0)%nat.
Proof.
  unfold upload_failures. rewrite List.filter_app, length_app. simpl.
  by destruct (upload_failure e).
Qed.

Lemma upload_accounting_step p e p' :
  length (requests p)
  = (awaiting_fetch p + awaiting_json p + length (object_urls p)
     + upload_failures (unhandled p))%nat ->
  step p e = Some p' ->
  length (requests p')
  = (awaiting_fetch p' + awaiting_json p' + length (object_urls p')
     + upload_failures (unhandled p'))%nat.
Proof.
  intros Hp Hstep.
  step_cases Hstep; simpl;
    repeat match goal with
      | H : get_audio _ = inl _ |- _ => apply get_audio_error in H; subst
      | H : decode_value _ = inl _ |- _ => apply decode_value_error in H; subst
      end;
    rewrite ?upload_failures_snoc, ?length_app; simpl; lia.
Qed.

(** X8: every call of [fetch] is accounted for.  On every page the script
    reaches, the number of requests made equals the number of exchanges still
    awaited (at [fetch] or at [res.json()]) plus the number of responses
    turned into an object URL plus the number of unhandled rejections that
    came out of [sendAudio]. *)
Theorem reachable_upload_accounting p :
  reachable p ->
  length (requests p)
  = (awaiting_fetch p + awaiting_json p + length (object_urls p)
     + upload_failures (unhandled p))%nat.
Proof.
  intros [t Hrun].
  assert (length (requests initial)
          = (awaiting_fetch initial + awaiting_json initial
             + length (object_urls initial)
             + upload_failures (unhandled initial))%nat) as Hinit by done.
  revert Hinit Hrun. generalize initial.
  induction t as [|e t IH]; intros q Hq Hrun.
  - by inversion Hrun; subst.
  - simpl in Hrun. destruct (step q e) as [q1|] eqn:Hstep; [|done].
    apply (IH q1); [|done]. by apply (upload_accounting_step q e).
Qed.

Lemma reachable_upload_accounting_sample :
  exists p,
    run initial [Click; StreamRejected; Click; StreamResolved; Click;
                 StopFired 0; FetchResolved; JsonRejected;
                 Click; StreamResolved; Click; StopFired 1] = Some p
    /\ length (requests p) = 2%nat
    /\ length (requests p)
       = (awaiting_fetch p + awaiting_json p + length (object_urls p)
          + upload_failures (unhandled p))%nat.
Proof.
  eexists. split; [vm_compute; reflexivity|]. split; [reflexivity|].
  apply reachable_upload_accounting.
  exists [Click; StreamRejected; Click; StreamResolved; Click;
          StopFired 0; FetchResolved; JsonRejected;
          Click; StreamResolved; Click; StopFired 1].
  vm_compute. reflexivity.
Defined.

(** ** The microphone refused *)

(** X9: when [getUserMedia] rejects after a click on an idle page, the click
    handler ends there: the rejection is unhandled, no recorder is made,
    [mediaRecorder], the buffer, the requests and the console are what they
    were, and the page is idle again, so the next click asks once more. *)
Theorem refused_stream_leaves_page_idle p :
  idle p ->
  exists p',
    run p [Click; StreamRejected] = Some p'
    /\ unhandled p' = unhandled p ++ [DOMException]
    /\ mediaRecorder p' = mediaRecorder p
    /\ recorders p' = recorders p
    /\ chunks p' = chunks p
    /\ requests p' = requests p
    /\ console p' = console p
    /\ awaiting_stream p' = awaiting_stream p
    /\ idle p'
    /\ step p' Click = Some (set_awaiting_stream (S (awaiting_stream p')) p').
Proof.
  intros Hidle. cbn [run]. rewrite step_click_idle by done. simpl.
  eexists. split; [reflexivity|]. do 7 (split; [done|]).
  assert (idle (reject DOMException
                  (set_awaiting_stream (awaiting_stream p)
                     (set_awaiting_stream (S (awaiting_stream p)) p)))) as Hi
    by exact Hidle.
  split; [exact Hi|]. by apply step_click_idle.
Qed.

Lemma refused_stream_leaves_page_idle_sample :
  exists p',
    run initial [Click; StreamRejected] = Some p'
    /\ unhandled p' = unhandled initial ++ [DOMException]
    /\ mediaRecorder p' = mediaRecorder initial
    /\ recorders p' = recorders initial
    /\ chunks p' = chunks initial
    /\ requests p' = requests initial
    /\ console p' = console initial
    /\ awaiting_stream p' = awaiting_stream initial
    /\ idle p'
    /\ step p' Click = Some (set_awaiting_stream (S (awaiting_stream p')) p').
Proof. apply (refused_stream_leaves_page_idle initial). by left. Defined.

(** ** The life of a recorder *)

Lemma spent_MediaRecorder_stop m : spent m -> MediaRecorder_stop m = m.
Proof. intros [Hs _]. unfold MediaRecorder_stop. by rewrite Hs. Qed.

Lemma recorder_kept_step p e p' r m :
  step p e = Some p' -> recorders p !! r = Some m ->
  exists m',
    recorders p' !! r = Some m'
    /\ ondataavailable m' = ondataavailable m
    /\ onstop m' = onstop m
    /\ (state m = inactive -> state m' = inactive)
    /\ (spent m -> spent m').
Proof.
  intros Hstep Hm.
  assert (forall f r0,
            (forall x, ondataavailable (f x) = ondataavailable x
                       /\ onstop (f x) = onstop x
                       /\ (state x = inactive -> state (f x) = inactive)
                       /\ (spent x -> spent (f x))) ->
            exists m',
              alter f r0 (recorders p) !! r = Some m'
              /\ ondataavailable m' = ondataavailable m
              /\ onstop m' = onstop m
              /\ (state m = inactive -> state m' = inactive)
              /\ (spent m -> spent m')) as Halter.
  { intros f r0 Hf. rewrite list_lookup_alter. case_decide.
    - subst r0. rewrite Hm. simpl. exists (f m). split; [done|]. apply Hf.
    - exists m. by rewrite Hm. }
  assert (forall x, ondataavailable (MediaRecorder_stop x) = ondataavailable x
                    /\ onstop (MediaRecorder_stop x) = onstop x
                    /\ (state x = inactive -> state (MediaRecorder_stop x) = inactive)
                    /\ (spent x -> spent (MediaRecorder_stop x))) as Hstop.
  { intros x. unfold MediaRecorder_stop.
    destruct (state x) eqn:E; simpl; repeat split; try done;
      match goal with H : spent _ |- _ => destruct H; congruence end. }
  assert (forall x, ondataavailable (stop_fired x) = ondataavailable x
                    /\ onstop (stop_fired x) = onstop x
                    /\ (state x = inactive -> state (stop_fired x) = inactive)
                    /\ (spent x -> spent (stop_fired x))) as Hfired.
  { intros x. repeat split; try done;
      match goal with H : spent _ |- _ => by destruct H end. }
  step_cases Hstep; rewrite ?recorders_onclick_stream; simpl;
    try (apply Halter; assumption);
    try (exists m; by rewrite ?Hm).
  exists m. split; [|done]. by apply lookup_app_l_Some.
Qed.

(** X10: the script never removes, re-wires or restarts a recorder.  Over
    any run of events a recorder keeps its place and its two handlers, and
    once it is inactive it stays inactive: a new capture is always a new
    recorder. *)
Theorem recorder_never_restarted t p p' r m :
  run p t = Some p' -> recorders p !! r = Some m ->
  exists m',
    recorders p' !! r = Some m'
    /\ ondataavailable m' = ondataavailable m
    /\ onstop m' = onstop m
    /\ (state m = inactive -> state m' = inactive).
Proof.
  revert p m. induction t as [|e t IH]; intros p m Hrun Hm.
  - inversion Hrun; subst. by exists m.
  - simpl in Hrun. destruct (step p e) as [p1|] eqn:Hstep; [|done].
    destruct (recorder_kept_step p e p1 r m Hstep Hm)
      as (m1 & Hm1 & Hd1 & Hs1 & Hi1 & _).
    destruct (IH p1 m1 Hrun Hm1) as (m' & Hm' & Hd' & Hs' & Hi').
    exists m'. split; [done|]. split; [congruence|]. split; [congruence|].
    auto.
Qed.

Lemma recorder_never_restarted_sample :
  exists p p' m',
    run initial [Click; StreamResolved; Click; StopFired 0] = Some p
    /\ run p [Click; StreamResolved;
              DataAvailable 1 {| blob_bytes := [x01]; blob_type := "audio/webm" |};
              Click; Click] = Some p'
    /\ recorders p !! 0%nat = Some (stop_fired (MediaRecorder_stop started))
    /\ recorders p' !! 0%nat = Some m'
    /\ ondataavailable m' = Some push_chunk
    /\ onstop m' = Some sendAudio_handler
    /\ state m' = inactive.
Proof.
  destruct (run initial [Click; StreamResolved; Click; StopFired 0])
    as [p|] eqn:H0; [|vm_compute in H0; discriminate].
  vm_compute in H0. injection H0 as <-.
  match goal with
  | |- exists p p' m', _ /\ run p ?t = _ /\ _ =>
      destruct (run
        {| mediaRecorder := Some 0%nat; chunks := [];
           recorders := [stop_fired (MediaRecorder_stop started)];
           awaiting_stream := 0; awaiting_fetch := 1; awaiting_json := 0;
           requests := [upload_of []]; object_urls := [];
           responseAudio_src := None; console := ["Recording..."%string];
           unhandled := [] |} t) as [p'|] eqn:H1;
        [|vm_compute in H1; discriminate]
  end.
  destruct (recorder_never_restarted _ _ p' 0%nat
              (stop_fired (MediaRecorder_stop started)) H1 eq_refl)
    as (m' & Hm' & Hd & Hs & Hi).
  eexists _, p', m'. split; [reflexivity|].
  split; [exact H1|]. split; [reflexivity|]. split; [exact Hm'|].
  split; [exact Hd|]. split; [exact Hs|]. by apply Hi.
Defined.

Lemma queued_inactive_step p e p' :
  queued_inactive p -> step p e = Some p' -> queued_inactive p'.
Proof.
  unfold queued_inactive. intros Hp Hstep.
  step_cases Hstep; rewrite ?recorders_onclick_stream; simpl;
    try exact Hp; intros r' m' Hm' Hq.
  - rewrite list_lookup_alter in Hm'. case_decide.
    + subst. destruct (recorders p !! r') as [m0|] eqn:Hm0; [|done].
      simpl in Hm'. injection Hm' as <-. unfold MediaRecorder_stop in *.
      destruct (state m0) eqn:E; simpl in *; done.
    + by apply (Hp r' m').
  - apply lookup_app_Some in Hm' as [Hm'|[_ Hm']]; [by apply (Hp r' m')|].
    destruct (r' - length (recorders p))%nat; simpl in Hm'; [|done].
    injection Hm' as <-. done.
  - rewrite list_lookup_alter in Hm'. case_decide.
    + subst. destruct (recorders p !! r') as [m0|]; [|done].
      simpl in Hm'. injection Hm' as <-. done.
    + by apply (Hp r' m').
  - rewrite list_lookup_alter in Hm'. case_decide.
    + subst. destruct (recorders p !! r') as [m0|]; [|done].
      simpl in Hm'. injection Hm' as <-. done.
    + by apply (Hp r' m').
  - rewrite list_lookup_alter in Hm'. case_decide.
    + subst. destruct (recorders p !! r') as [m0|] eqn:Hm0; [|done].
      simpl in Hm'. injection Hm' as <-. unfold MediaRecorder_stop in *.
      destruct (state m0) eqn:E; simpl in *; done.
    + by apply (Hp r' m').
Qed.

Lemma queued_inactive_run t p p' :
  queued_inactive p -> run p t = Some p' -> queued_inactive p'.
Proof.
  revert p. induction t as [|e t IH]; intros p Hp Hrun.
  - by inversion Hrun; subst.
  - simpl in Hrun. destruct (step p e) as [p1|] eqn:Hstep; [|done].
    apply (IH p1); [|done]. by apply (queued_inactive_step p e).
Qed.

Lemma spent_run t p p' r m :
  run p t = Some p' -> recorders p !! r = Some m -> spent m ->
  StopFired r ∉ t.
Proof.
  revert p m. induction t as [|e t IH]; intros p m Hrun Hm Hsp.
  - apply not_elem_of_nil.
  - simpl in Hrun. destruct (step p e) as [p1|] eqn:Hstep; [|done].
    apply not_elem_of_cons. split.
    + intros <-. destruct Hsp as [_ Hq].
      by rewrite (step_stop_none p r m) in Hstep.
    + destruct (recorder_kept_step p e p1 r m Hstep Hm)
        as (m1 & Hm1 & _ & _ & _ & Hsp1).
      by apply (IH p1 m1); [| |apply Hsp1].
Qed.

(** X11: a recorder fires its stop event once at most, so it causes one
    upload at most: in a run of events from the initial page, after the stop
    event of a recorder there is no second one for it. *)
Theorem one_stop_event_per_recorder t1 r t2 p :
  run initial (t1 ++ StopFired r :: t2) = Some p -> StopFired r ∉ t2.
Proof.
  rewrite run_app. destruct (run initial t1) as [p1|] eqn:H1; [|done].
  cbn [mbind option_bind run].
  destruct (step p1 (StopFired r)) as [p2|] eqn:H2; [|done].
  cbn [mbind option_bind]. intros Hrun.
  assert (queued_inactive p1) as Hq1.
  { apply (queued_inactive_run t1 initial); [|done]. by intros r' m'. }
  simpl in H2. destruct (recorders p1 !! r) as [m|] eqn:Hm; [|done].
  simpl in H2. destruct (stop_queued m) eqn:Hq; [|done].
  assert (recorders p2 !! r = Some (stop_fired m)) as Hm2.
  { destruct (onstop m) as [[]|]; injection H2 as <-; simpl;
      by rewrite list_lookup_alter_eq, Hm. }
  apply (spent_run t2 p2 p r (stop_fired m)); [done|done|].
  split; [|done]. by apply (Hq1 r m).
Qed.

Lemma one_stop_event_per_recorder_sample :
  exists p,
    run initial ([Click; StreamResolved; Click] ++ StopFired 0
                 :: [Click; StreamResolved; Click; StopFired 1]) = Some p
    /\ StopFired 0 ∉ [Click; StreamResolved; Click; StopFired 1].
Proof.
  destruct (run initial ([Click; StreamResolved; Click] ++ StopFired 0
                         :: [Click; StreamResolved; Click; StopFired 1]))
    as [p|] eqn:H; [|vm_compute in H; discriminate].
  exists p. split; [reflexivity|].
  exact (one_stop_event_per_recorder _ _ _ p H).
Defined.

(** ** The buffer over many sessions *)

(** X12: the buffer is never cleared and never reordered.  After any run of
    events from the initial page, whatever the number of sessions and
    whichever recorders delivered, [chunks] holds every chunk delivered since
    the page was loaded, in delivery order. *)
Theorem buffer_holds_all_delivered t p :
  run initial t = Some p -> chunks p = delivered t.
Proof. intros Hrun. by destruct (reachable_buffer_and_uploads t p Hrun). Qed.

Lemma buffer_holds_all_delivered_sample :
  exists p,
    run initial
      (cycle 0 [ {| blob_bytes := [x01]; blob_type := "audio/webm" |} ]
       ++ cycle 1 [ {| blob_bytes := [x02]; blob_type := "audio/webm" |} ]
       ++ cycle 2 [ {| blob_bytes := [x03]; blob_type := "audio/webm" |} ])
    = Some p
    /\ chunks p = [ {| blob_bytes := [x01]; blob_type := "audio/webm" |};
                    {| blob_bytes := [x02]; blob_type := "audio/webm" |};
                    {| blob_bytes := [x03]; blob_type := "audio/webm" |} ].
Proof.
  destruct (run initial
      (cycle 0 [ {| blob_bytes := [x01]; blob_type := "audio/webm" |} ]
       ++ cycle 1 [ {| blob_bytes := [x02]; blob_type := "audio/webm" |} ]
       ++ cycle 2 [ {| blob_bytes := [x03]; blob_type := "audio/webm" |} ]))
    as [p|] eqn:H; [|vm_compute in H; discriminate].
  exists p. split; [reflexivity|].
  exact (buffer_holds_all_delivered _ p H).
Defined.

Lemma uploads_extend_buffer buffer t q :
  q ∈ uploads buffer t ->
  exists more, payloads q = [concat (map blob_bytes buffer) ++ more].
Proof.
  revert buffer. induction t as [|e t IH]; intros buffer Hq.
  - by apply elem_of_nil in Hq.
  - destruct e; simpl in Hq; try (by apply IH).
    + destruct (IH _ Hq) as [more Hmore]. rewrite Hmore.
      rewrite map_app, concat_app. simpl. rewrite app_nil_r.
      exists (blob_bytes data ++ more). by rewrite <- app_assoc.
    + apply elem_of_cons in Hq as [->|Hq]; [|by apply IH].
      exists []. unfold payloads. simpl. by rewrite app_nil_r.
Qed.

Lemma uploads_ordered buffer t i j q1 q2 :
  (i <= j)%nat ->
  uploads buffer t !! i = Some q1 -> uploads buffer t !! j = Some q2 ->
  exists b1 more, payloads q1 = [b1] /\ payloads q2 = [b1 ++ more].
Proof.
  revert buffer i j. induction t as [|e t IH]; intros buffer i j Hij H1 H2.
  - done.
  - destruct e; simpl in H1, H2; try (eapply IH; eassumption).
    destruct i as [|i].
    + simpl in H1. injection H1 as <-.
      exists (concat (map blob_bytes buffer)).
      destruct j as [|j].
      * simpl in H2. injection H2 as <-. exists [].
        unfold payloads. simpl. by rewrite app_nil_r.
      * simpl in H2. apply list_elem_of_lookup_2 in H2.
        destruct (uploads_extend_buffer _ _ _ H2) as [more Hmore].
        exists more. done.
    + destruct j as [|j]; [lia|]. simpl in H1, H2.
      apply (IH buffer i j); [lia|done|done].
Qed.

(** X13: every upload repeats the uploads before it.  Among the requests a
    page has made since it was loaded, the audio part of an earlier request
    is a prefix of the audio part of every later one. *)
Theorem earlier_upload_is_prefix_of_later p i j q1 q2 :
  reachable p -> (i <= j)%nat ->
  requests p !! i = Some q1 -> requests p !! j = Some q2 ->
  exists b1 more, payloads q1 = [b1] /\ payloads q2 = [b1 ++ more].
Proof.
  intros [t Hrun] Hij H1 H2.
  destruct (reachable_buffer_and_uploads t p Hrun) as [_ Hq].
  rewrite Hq in H1, H2. by apply (uploads_ordered [] t i j).
Qed.

Lemma earlier_upload_is_prefix_of_later_sample :
  exists p q1 q2 b1 more,
    run initial
      (cycle 0 [ {| blob_bytes := [x01]; blob_type := "audio/webm" |} ]
       ++ cycle 1 [ {| blob_bytes := [x02]; blob_type := "audio/webm" |} ])
    = Some p
    /\ requests p !! 0%nat = Some q1 /\ requests p !! 1%nat = Some q2
    /\ payloads q1 = [b1] /\ payloads q2 = [b1 ++ more].
Proof.
  destruct (run initial
      (cycle 0 [ {| blob_bytes := [x01]; blob_type := "audio/webm" |} ]
       ++ cycle 1 [ {| blob_bytes := [x02]; blob_type := "audio/webm" |} ]))
    as [p|] eqn:H; [|vm_compute in H; discriminate].
  assert (reachable p) as Hp by (eexists; exact H).
  vm_compute in H. injection H as <-.
  destruct (earlier_upload_is_prefix_of_later _ 0%nat 1%nat
              (upload_of [ {| blob_bytes := [x01]; blob_type := "audio/webm" |} ])
              (upload_of [ {| blob_bytes := [x01]; blob_type := "audio/webm" |};
                           {| blob_bytes := [x02]; blob_type := "audio/webm" |} ])
              Hp ltac:(lia) eq_refl eq_refl) as (b1 & more & Hb1 & Hb2).
  eexists _, _, _, b1, more. split; [reflexivity|].
  split; [reflexivity|]. split; [reflexivity|]. split; [exact Hb1|exact Hb2].
Defined.

(** ** Capture and exchanges side by side *)

(** The continuation of the click handler, in one piece. *)
Lemma onclick_stream_eq p :
  onclick_stream p
  = console_log "Recording..."
      (set_mediaRecorder (Some (length (recorders p)))
         (set_recorders (recorders p ++ [started]) p)).
Proof.
  pose proof (recorders_onclick_stream p) as H.
  unfold onclick_stream in *. simpl in *.
  unfold console_log, set_mediaRecorder, set_recorders. simpl.
  by rewrite H.
Qed.

Local Arguments onclick_stream : simpl never.

(** X14: the events of a capture (a click, a granted stream, a delivered
    chunk) and the events of an exchange under way (the settling of [fetch]
    or of [res.json()]) do not interfere: in either order they are enabled
    together and lead to the same page.  A response may arrive at any moment
    of a later recording. *)
Theorem capture_and_response_commute p e1 e2 :
  capture_event e1 = true -> response_event e2 = true ->
  run p [e1; e2] = run p [e2; e1].
Proof.
  destruct p as [mr ch recs ws wf wj rq ou src con unh].
  destruct e1; try discriminate; destruct e2; try discriminate; intros _ _;
    simpl; unfold onclick, sendAudio_data; simpl;
    rewrite ?onclick_stream_eq; simpl;
    repeat (match goal with
            | |- context [?l !! ?r] => is_var l; destruct (l !! r) eqn:?
            | |- context [match ?x with _ => _ end] => is_var x; destruct x
            | |- context [is_inactive ?m] => destruct (is_inactive m) eqn:?
            | |- context [stop_queued ?m] => destruct (stop_queued m) eqn:?
            | |- context [ondataavailable ?m] =>
                destruct (ondataavailable m) as [[]|] eqn:?
            | |- context [get_audio ?d] => destruct (get_audio d) eqn:?
            | |- context [decode_value ?v] => destruct (decode_value v) eqn:?
            end; rewrite ?onclick_stream_eq; simpl);
    rewrite ?onclick_stream_eq;
    first [reflexivity | simplify_eq; congruence].
Qed.

Lemma capture_and_response_commute_sample :
  exists p p',
    run initial [Click; StreamResolved; Click; StopFired 0; Click;
                 StreamResolved; FetchResolved] = Some p
    /\ run p [DataAvailable 1 {| blob_bytes := [x01]; blob_type := "audio/webm" |};
              JsonResolved (Object [(js "audio", Str (js "ff"))])] = Some p'
    /\ run p [JsonResolved (Object [(js "audio", Str (js "ff"))]);
              DataAvailable 1 {| blob_bytes := [x01]; blob_type := "audio/webm" |}]
       = Some p'.
Proof.
  eexists _, _. split; [vm_compute; reflexivity|].
  rewrite <- (capture_and_response_commute _
                (DataAvailable 1 {| blob_bytes := [x01]; blob_type := "audio/webm" |})
                (JsonResolved (Object [(js "audio", Str (js "ff"))]))
                eq_refl eq_refl).
  split; vm_compute; reflexivity.
Defined.

(** ** A recorder left behind *)

Lemma left_behind_step p e p' r m r' :
  step p e = Some p' -> e <> CaptureEnded r ->
  recorders p !! r = Some m -> mediaRecorder p = Some r' -> (r < r')%nat ->
  exists m' r'',
    recorders p' !! r = Some m' /\ state m' = state m
    /\ mediaRecorder p' = Some r'' /\ (r < r'')%nat.
Proof.
  intros Hstep Hne Hm Hr Hlt.
  pose proof (lookup_lt_Some _ _ _ Hm) as Hlen.
  step_cases Hstep; rewrite ?onclick_stream_eq; simpl; simplify_eq;
    try (exists m, r'; by rewrite ?Hm).
  - exists m, r'. by rewrite list_lookup_alter_ne by lia.
  - exists m, (length (recorders p)).
    by rewrite lookup_app_l by done.
  - destruct (decide (r0 = r)) as [->|Hne'];
      [exists (stop_fired m), r'; by rewrite list_lookup_alter_eq, Hm
      |exists m, r'; by rewrite list_lookup_alter_ne].
  - destruct (decide (r0 = r)) as [->|Hne'];
      [exists (stop_fired m), r'; by rewrite list_lookup_alter_eq, Hm
      |exists m, r'; by rewrite list_lookup_alter_ne].
  - exists m, r'. rewrite list_lookup_alter_ne; [done|]. congruence.
Qed.

(** X15: the script can never stop a recorder that captures while
    [mediaRecorder] refers to a later one.  Over any run of events in which
    the platform does not itself end that recorder's capture, it stays in the
    state it is in: the only [stop()] of the script goes to the recorder
    [mediaRecorder] refers to, and that variable only moves on to newer
    recorders. *)
Theorem recorder_left_behind_keeps_state t p p' r m r' :
  run p t = Some p' -> CaptureEnded r ∉ t ->
  recorders p !! r = Some m -> mediaRecorder p = Some r' -> (r < r')%nat ->
  exists m', recorders p' !! r = Some m' /\ state m' = state m.
Proof.
  revert p m r'. induction t as [|e t IH]; intros p m r' Hrun Hnot Hm Hr Hlt.
  - inversion Hrun; subst. by exists m.
  - simpl in Hrun. destruct (step p e) as [p1|] eqn:Hstep; [|done].
    apply not_elem_of_cons in Hnot as [Hne Hnot].
    destruct (left_behind_step p e p1 r m r' Hstep) as
      (m1 & r1 & Hm1 & Hs1 & Hr1 & Hlt1); [congruence|done|done|done|].
    destruct (IH p1 m1 r1 Hrun Hnot Hm1 Hr1 Hlt1) as (m' & Hm' & Hs').
    exists m'. split; [done|]. congruence.
Qed.

Lemma recorder_left_behind_keeps_state_sample :
  exists p p' m',
    run initial [Click; Click; StreamResolved; StreamResolved] = Some p
    /\ run p [Click; StopFired 1; Click; StreamResolved; Click; StopFired 2]
       = Some p'
    /\ recorders p' !! 0%nat = Some m'
    /\ state m' = recording.
Proof.
  destruct (run initial [Click; Click; StreamResolved; StreamResolved])
    as [p|] eqn:H0; [|vm_compute in H0; discriminate].
  vm_compute in H0. injection H0 as <-.
  match goal with
  | |- exists p p' m', _ /\ run p ?t = _ /\ _ =>
      destruct (run
        {| mediaRecorder := Some 1%nat; chunks := [];
           recorders := [started; started];
           awaiting_stream := 0; awaiting_fetch := 0; awaiting_json := 0;
           requests := []; object_urls := [];
           responseAudio_src := None;
           console := ["Recording..."%string; "Recording..."%string];
           unhandled := [] |} t) as [p'|] eqn:H1;
        [|vm_compute in H1; discriminate]
  end.
  assert (CaptureEnded 0
          ∉ [Click; StopFired 1; Click; StreamResolved; Click; StopFired 2])
    as Hnot.
  { intros H. repeat (apply elem_of_cons in H as [H|H]; [discriminate H|]).
    by apply elem_of_nil in H. }
  destruct (recorder_left_behind_keeps_state _ _ p' 0%nat started 1%nat
              H1 Hnot eq_refl eq_refl ltac:(lia)) as (m' & Hm' & Hs).
  eexists _, p', m'. split; [reflexivity|].
  split; [exact H1|]. split; [exact Hm'|exact Hs].
Defined.

(** ** Which responses are played *)

Lemma get_audio_Str data s :
  get_audio data = inr (Str s) <->
  exists props, data = Object props /\ own_property props (js "audio") = Str s.
Proof.
  split.
  - destruct data; simpl; try congruence. intros [= H]. by exists props.
  - intros (props & -> & H). simpl. by rewrite H.
Qed.

(** X16: exactly which parsed responses end in playback.  When
    [res.json()] resolves, the continuation of [sendAudio] completes without
    a rejection if and only if the value is an object whose own property
    [audio] is a string with at least one code unit that is not a line
    terminator; in every other case it rejects with a TypeError. *)
Theorem response_played_iff p n data :
  awaiting_json p = S n ->
  exists p',
    step p (JsonResolved data) = Some p'
    /\ ((unhandled p' = unhandled p
         /\ responseAudio_src p' = Some (length (object_urls p)))
        \/ (unhandled p' = unhandled p ++ [TypeError]
            /\ responseAudio_src p' = responseAudio_src p))
    /\ (unhandled p' = unhandled p <->
        exists props s,
          data = Object props /\ own_property props (js "audio") = Str s
          /\ forallb is_LineTerminator s = false).
Proof.
  intros Hn. simpl. rewrite Hn. eexists. split; [reflexivity|].
  assert (forall l : list JsError, l ++ [TypeError] <> l) as Hsnoc.
  { intros l H. apply (f_equal length) in H. rewrite length_app in H.
    simpl in H. lia. }
  unfold sendAudio_data.
  destruct (get_audio data) as [e|v] eqn:E.
  - apply get_audio_error in E as HE. subst e. simpl.
    split; [by right|]. split; [by intros H%Hsnoc|].
    intros (props & s & -> & Hs & _). simpl in E. congruence.
  - destruct (decode_value v) as [e|bytes] eqn:D.
    + apply decode_value_error in D as HD. subst e. simpl.
      split; [by right|]. split; [by intros H%Hsnoc|].
      intros (props & s & -> & Hs & Hl). simpl in E. injection E as <-.
      rewrite Hs in D. simpl in D.
      by rewrite decode_audio_groups in D.
    + simpl. split; [by left|]. split; [|done]. intros _.
      destruct v; simpl in D; try discriminate.
      apply get_audio_Str in E as (props & -> & Hs).
      exists props, s. do 2 (split; [done|]).
      destruct (forallb is_LineTerminator s) eqn:Hl; [|done].
      apply match_all_nil in Hl. unfold decode_audio, String_match in D.
      by rewrite Hl in D.
Qed.

Lemma response_played_iff_sample :
  exists p p',
    run initial [Click; StreamResolved; Click; StopFired 0; FetchResolved] = Some p
    /\ step p (JsonResolved (Array [Str (js "ff")])) = Some p'
    /\ ((unhandled p' = unhandled p
         /\ responseAudio_src p' = Some (length (object_urls p)))
        \/ (unhandled p' = unhandled p ++ [TypeError]
            /\ responseAudio_src p' = responseAudio_src p))
    /\ (unhandled p' = unhandled p <->
        exists props s,
          Array [Str (js "ff")] = Object props
          /\ own_property props (js "audio") = Str s
          /\ forallb is_LineTerminator s = false).
Proof.
  destruct (run initial [Click; StreamResolved; Click; StopFired 0; FetchResolved])
    as [p|] eqn:H0; [|vm_compute in H0; discriminate].
  assert (awaiting_json p = 1%nat) as Hn
    by (vm_compute in H0; injection H0 as <-; reflexivity).
  destruct (response_played_iff p 0%nat (Array [Str (js "ff")]) Hn)
    as (p' & Hstep & Hor & Hiff).
  exists p, p'. split; [reflexivity|]. split; [exact Hstep|].
  split; [exact Hor|exact Hiff].
Defined.

(** ** A capture the platform ends *)


